(** * A C perceptron (perceptron.c), embedded and verified

    The program evaluates one artificial neuron: a weighted sum of the
    inputs plus a bias, thresholded by a step function.  The embedding
    follows the C source function by function.

    - [float] is IEEE 754 binary32.  Values are the [spec_float] of the
      standard library, operations are its [SFadd], [SFmul] and [SFcompare]
      at precision 24 and maximal exponent 128 (round to nearest, ties to
      even; every operation rounds to binary32, i.e. FLT_EVAL_METHOD is 0
      and products are not fused with sums).
    - [int] values are integers of [Z]; the loop counter stays between 0 and
      [num_inputs], so it never wraps.
    - Arrays live in a store of blocks; an array argument is the identifier
      of its block.  A read outside its block is the undefined behaviour of
      the source and ends the run with [OutOfBounds].
    - Statements are computations of a state and error monad [prog]; the
      state is the store together with the text written to standard
      output.

    The development has four parts: the embedding of the program; the
    run of the loop of [perceptron]; a theory of rounding to nearest even
    in a binary format, which shows that the sums and products of
    [SpecFloat] are monotone; and the properties of the program. *)

From Stdlib Require Import ZArith Lia Bool String Ascii.
From Stdlib Require Import Floats.SpecFloat.
From stdpp Require Import base list.

Local Open Scope Z_scope.

(** ** Single and double precision numbers *)

Module F32.

Definition prec : Z := 24.
Definition emax : Z := 128.

Definition add : spec_float -> spec_float -> spec_float := SFadd prec emax.
Definition mul : spec_float -> spec_float -> spec_float := SFmul prec emax.

(** The C comparisons; each is false as soon as an operand is a NaN. *)
Definition ge (x y : spec_float) : bool :=
  match SFcompare x y with
  | Some Gt | Some Eq => true
  | _ => false
  end.
Definition lt : spec_float -> spec_float -> bool := SFltb.
Definition le : spec_float -> spec_float -> bool := SFleb.

(** Conversion of an [int] to [float]. *)
Definition of_int (n : Z) : spec_float := binary_normalize prec emax n 0 false.

(** The values a C [float] can hold. *)
Definition valid (x : spec_float) : Prop := valid_binary prec emax x = true.

End F32.

Module F64.

Definition prec : Z := 53.
Definition emax : Z := 1024.

Definition of_int (n : Z) : spec_float := binary_normalize prec emax n 0 false.

(** The decimal literal [m / 10^k] of type [double], correctly rounded
    (both operands of the division are exact for the literals of the
    program). *)
Definition decimal (m : Z) (k : nat) : spec_float :=
  SFdiv prec emax (of_int m) (of_int (10 ^ Z.of_nat k)).

Definition neg : spec_float -> spec_float := SFopp.

(** Conversion from [double] to [float], as in [float bias = 0.1]. *)
Definition to_f32 (x : spec_float) : spec_float :=
  match x with
  | S754_finite s m e => binary_round F32.prec F32.emax s m e
  | _ => x
  end.

End F64.

Definition float32 : Type := spec_float.

(** ** The store and the monad of statements *)

Definition block := nat.

Record state := mkState {
  heap : list (list float32);
  stdout : string
}.

Inductive outcome (A : Type) : Type :=
| Done (a : A) (s : state)
| OutOfBounds
| OutOfFuel.
Arguments Done {A} a s.
Arguments OutOfBounds {A}.
Arguments OutOfFuel {A}.

Definition prog (A : Type) : Type := state -> outcome A.

Definition ret {A} (a : A) : prog A := fun s => Done a s.

Definition bind {A B} (c : prog A) (k : A -> prog B) : prog B :=
  fun s =>
    match c s with
    | Done a s' => k a s'
    | OutOfBounds => OutOfBounds
    | OutOfFuel => OutOfFuel
    end.

Notation "'let*' x ':=' c 'in' k" := (bind c (fun x => k))
  (at level 10, x name, c at level 100, k at level 200).

(** [a[i]]: a read of element [i] of the array in block [a]. *)
Definition load (a : block) (i : Z) : prog float32 :=
  fun s =>
    match heap s !! a with
    | Some xs =>
        if i <? 0 then OutOfBounds
        else match xs !! Z.to_nat i with
             | Some x => Done x s
             | None => OutOfBounds
             end
    | None => OutOfBounds
    end.

(** [float a[] = {...}]: a new array with the given contents. *)
Definition alloc (xs : list float32) : prog block :=
  fun s => Done (length (heap s)) (mkState (heap s ++ [xs]) (stdout s)).

(** Text appended to standard output. *)
Definition print (t : string) : prog unit :=
  fun s => Done tt (mkState (heap s) (stdout s ++ t)%string).

(** ** The program *)

(** [int step_function(float x) { return (x >= 0) ? 1 : 0; }] *)
Definition step_function (x : float32) : Z :=
  if F32.ge x (F32.of_int 0) then 1 else 0.

(** The loop of [perceptron], entered with counter [i] and accumulator
    [sum]:
    [for (; i < num_inputs; i++) sum += inputs[i] * weights[i];]
    Every iteration consumes one unit of [fuel]. *)
Fixpoint perceptron_loop (fuel : nat) (inputs weights : block) (num_inputs : Z)
    (i : Z) (sum : float32) : prog float32 :=
  if i <? num_inputs then
    match fuel with
    | O => fun _ => OutOfFuel
    | S fuel' =>
        let* x := load inputs i in
        let* w := load weights i in
        perceptron_loop fuel' inputs weights num_inputs (i + 1)
          (F32.add sum (F32.mul x w))
    end
  else ret sum.

(** The value of [sum] when the loop ends: [float sum = bias;] followed by
    the loop from [i = 0].  [num_inputs] units of fuel are always enough. *)
Definition weighted_sum (inputs weights : block) (bias : float32)
    (num_inputs : Z) : prog float32 :=
  perceptron_loop (Z.to_nat num_inputs) inputs weights num_inputs 0 bias.

(** [int perceptron(float inputs[], float weights[], float bias, int num_inputs)] *)
Definition perceptron (inputs weights : block) (bias : float32)
    (num_inputs : Z) : prog Z :=
  let* sum := weighted_sum inputs weights bias num_inputs in
  ret (step_function sum).

(** [%d] of [printf] for the values the program prints. *)
Fixpoint decimal_digits (fuel : nat) (n : Z) (acc : string) : string :=
  let acc' := String (ascii_of_nat (Z.to_nat (48 + n mod 10))) acc in
  match fuel with
  | O => acc'
  | S fuel' => if n <? 10 then acc' else decimal_digits fuel' (n / 10) acc'
  end.

Definition format_d (n : Z) : string :=
  if n <? 0 then String "-" (decimal_digits (Z.to_nat (- n)) (- n) EmptyString)
  else decimal_digits (Z.to_nat n) n EmptyString.

Definition newline : string := String (ascii_of_nat 10) EmptyString.

Example format_d_examples :
  format_d 0 = "0"%string /\ format_d 1 = "1"%string
  /\ format_d 120 = "120"%string /\ format_d (-12) = "-12"%string.
Proof. repeat split. Qed.

(** [int main()] *)
Definition main : prog Z :=
  let* inputs := alloc [F32.of_int 0; F32.of_int 1] in
  let* weights := alloc [F64.to_f32 (F64.decimal 5 1);
                         F64.to_f32 (F64.neg (F64.decimal 5 1))] in
  let bias := F64.to_f32 (F64.decimal 1 1) in
  let* output := perceptron inputs weights bias 2 in
  let* _ := print ("Perceptron Output: " ++ format_d output ++ newline)%string in
  ret 0.

Definition initial_state : state := mkState [] EmptyString.

(** ** The weighted sum as the specification words it *)

(** bias + Σ input[i] × weight[i] for i in [0, N), accumulated from the
    left. *)
Definition accumulate (acc : float32) (xw : float32 * float32) : float32 :=
  F32.add acc (F32.mul xw.1 xw.2).

Definition weighted_sum_spec (xs ws : list float32) (bias : float32) (n : nat)
    : float32 :=
  fold_left accumulate (zip (take n xs) (take n ws)) bias.

(** ** The scenarios of the specification *)

(** The arguments of the boundary scenario: inputs 2 and 0, weights 0.5
    and -0.5, bias -1.0. *)
Definition boundary_state : state :=
  mkState [[F32.of_int 2; F32.of_int 0];
           [F64.to_f32 (F64.decimal 5 1); F64.to_f32 (F64.neg (F64.decimal 5 1))]]
    EmptyString.
Definition boundary_bias : float32 := F64.to_f32 (F64.neg (F64.decimal 10 1)).

(** An infinite input with weight 0: the product is a NaN. *)
Definition nan_state : state :=
  mkState [[S754_infinity false]; [S754_zero false]] EmptyString.

(** The state in which [main] calls [perceptron]. *)
Definition driver_state : state :=
  mkState [[F32.of_int 0; F32.of_int 1];
           [F64.to_f32 (F64.decimal 5 1); F64.to_f32 (F64.neg (F64.decimal 5 1))]]
    EmptyString.

(** The two calls of the monotonicity scenario: inputs 1 and 1, then 2 and
    1, with weights 0.5 and -0.5. *)
Definition before_state : state :=
  mkState [[F32.of_int 1; F32.of_int 1];
           [F64.to_f32 (F64.decimal 5 1); F64.to_f32 (F64.neg (F64.decimal 5 1))]]
    EmptyString.
Definition after_state : state :=
  mkState [[F32.of_int 2; F32.of_int 1];
           [F64.to_f32 (F64.decimal 5 1); F64.to_f32 (F64.neg (F64.decimal 5 1))]]
    EmptyString.

(** Zero inputs of either sign with the weights 0.5 and -0.5, and the
    inputs 1 and 1 with the second one raised to 2. *)
Definition zero_state : state :=
  mkState [[S754_zero false; S754_zero true];
           [F64.to_f32 (F64.decimal 5 1); F64.to_f32 (F64.neg (F64.decimal 5 1))]]
    EmptyString.
Definition raised_state : state :=
  mkState [[F32.of_int 1; F32.of_int 2];
           [F64.to_f32 (F64.decimal 5 1); F64.to_f32 (F64.neg (F64.decimal 5 1))]]
    EmptyString.

(** The zeros of either sign. *)
Definition is_zero (x : spec_float) : bool :=
  match x with
  | S754_zero _ => true
  | _ => false
  end.

(** ** The values of floats and their rounding, as integers *)

(** [n / 2^k] rounded to the nearest integer, a tie to the even one. *)
Definition rne (n k : Z) : Z :=
  let q := n / 2 ^ k in
  let r2 := 2 * (n mod 2 ^ k) in
  if r2 <? 2 ^ k then q
  else if 2 ^ k <? r2 then q + 1
  else if Z.even q then q else q + 1.

(** Zeros and finite nonzero floats. *)
Definition is_finite (x : spec_float) : bool :=
  match x with
  | S754_zero _ | S754_finite _ _ _ => true
  | _ => false
  end.

(** A NaN or minus infinity: what no later addition brings back to a
    value that compares above anything. *)
Definition dead (x : spec_float) : Prop :=
  x = S754_nan \/ x = S754_infinity true.

(** The four kinds of floats an operation distinguishes. *)
Inductive float_class (x : spec_float) : Prop :=
| class_nan : x = S754_nan -> float_class x
| class_pinf : x = S754_infinity false -> float_class x
| class_ninf : x = S754_infinity true -> float_class x
| class_finite : is_finite x = true -> float_class x.

(** The state of a right shift of [m0] by [j] bits: the quotient, the bit
    shifted out last and whether a lower bit was set. *)
Definition shifted (m0 j : Z) (mrs : shr_record) : Prop :=
  0 <= shr_m mrs /\
  exists t, 0 <= t < 2 ^ j
    /\ 2 * m0 = (2 * shr_m mrs + Z.b2z (shr_r mrs)) * 2 ^ j + t
    /\ (shr_s mrs = true <-> t <> 0).

Section Format.
Variables prec emax : Z.

(** The value of a float in units of [2^emin], the least positive value of
    the format; the infinities stand one binade above the largest finite
    value. *)
Definition scaled (x : spec_float) : Z :=
  match x with
  | S754_zero _ => 0
  | S754_infinity s => cond_Zopp s (2 ^ (emax - emin prec emax))
  | S754_nan => 0
  | S754_finite s m e => cond_Zopp s (Zpos m * 2 ^ (e - emin prec emax))
  end.

(** The rounding of [n * 2^c] for [n > 0], in the same units. *)
Definition round_pos (c n : Z) : Z :=
  let e' := fexp prec emax (Zdigits2 n + c) in
  Z.min (rne n (e' - c) * 2 ^ (e' - emin prec emax)) (2 ^ (emax - emin prec emax)).

(** The same for an integer of either sign; rounding is symmetric. *)
Definition round_scaled (c n : Z) : Z :=
  match n with
  | 0 => 0
  | Zpos _ => round_pos c n
  | Zneg p => - round_pos c (Zpos p)
  end.

(** [x] is a float of the format, not a NaN, of sign [s] and magnitude
    [v]. *)
Definition rounds_to (x : spec_float) (s : bool) (v : Z) : Prop :=
  valid_binary prec emax x = true /\ x <> S754_nan /\ scaled x = cond_Zopp s v.

(** [a] and [a'] are floats of the format, and [a <= a'] unless [a] is
    dead. *)
Definition below (a a' : spec_float) : Prop :=
  valid_binary prec emax a = true /\ valid_binary prec emax a' = true
  /\ (dead a \/ SFleb a a' = true).

End Format.

(** ** The monad and the loads *)

Lemma bind_done {A B} (c : prog A) (k : A -> prog B) s a s' :
  c s = Done a s' -> bind c k s = k a s'.
Proof. intros H. unfold bind. rewrite H. reflexivity. Qed.

Lemma load_in_bounds a i s (xs : list float32) x :
  heap s !! a = Some xs -> 0 <= i -> xs !! Z.to_nat i = Some x ->
  load a i s = Done x s.
Proof.
  intros Ha Hi Hx. unfold load. rewrite Ha.
  destruct (Z.ltb_spec i 0) as [Hneg|_]; [lia|]. rewrite Hx. reflexivity.
Qed.

Lemma load_past_end a i s (xs : list float32) :
  heap s !! a = Some xs -> Z.of_nat (length xs) <= i -> load a i s = OutOfBounds.
Proof.
  intros Ha Hi. unfold load. rewrite Ha.
  destruct (Z.ltb_spec i 0) as [_|_]; [reflexivity|].
  rewrite (proj2 (lookup_ge_None xs (Z.to_nat i))) by lia. reflexivity.
Qed.

Lemma load_frame a i s x s' : load a i s = Done x s' -> s' = s.
Proof.
  unfold load. destruct (heap s !! a) as [xs|]; [|discriminate].
  destruct (i <? 0); [discriminate|].
  destruct (xs !! Z.to_nat i); [|discriminate].
  intros H. injection H as _ H. symmetry. exact H.
Qed.

Lemma load_fuel a i s : load a i s <> OutOfFuel.
Proof.
  unfold load. destruct (heap s !! a) as [xs|]; [|discriminate].
  destruct (i <? 0); [discriminate|].
  destruct (xs !! Z.to_nat i); discriminate.
Qed.

(** ** The loop of [perceptron] *)

Lemma perceptron_loop_exit fuel inputs weights n i sum :
  n <= i -> perceptron_loop fuel inputs weights n i sum = ret sum.
Proof.
  intros H. destruct fuel; simpl;
    destruct (Z.ltb_spec i n); try lia; reflexivity.
Qed.

Lemma perceptron_loop_step fuel inputs weights n i sum :
  i < n ->
  perceptron_loop (S fuel) inputs weights n i sum =
  (let* x := load inputs i in
   let* w := load weights i in
   perceptron_loop fuel inputs weights n (i + 1) (F32.add sum (F32.mul x w))).
Proof.
  intros H. simpl. destruct (Z.ltb_spec i n); [reflexivity|lia].
Qed.

Section Loop.

Variables (s : state) (inputs weights : block) (xs ws : list float32).
Hypothesis Hin : heap s !! inputs = Some xs.
Hypothesis Hw : heap s !! weights = Some ws.

(** With the count within both arrays the loop reads in bounds, leaves
    the state as it was and accumulates the remaining terms from the
    left. *)
Lemma perceptron_loop_run n k : forall fuel i sum,
  0 <= i -> Z.to_nat (n - i) = k -> (k <= fuel)%nat ->
  n <= Z.of_nat (length xs) -> n <= Z.of_nat (length ws) ->
  perceptron_loop fuel inputs weights n i sum s =
  Done (fold_left accumulate
          (zip (take k (drop (Z.to_nat i) xs)) (take k (drop (Z.to_nat i) ws)))
          sum) s.
Proof.
  induction k as [|k IH]; intros fuel i sum Hi Hk Hfuel Hxs Hws.
  - rewrite perceptron_loop_exit by lia. reflexivity.
  - destruct fuel as [|fuel]; [lia|].
    rewrite perceptron_loop_step by lia.
    destruct (lookup_lt_is_Some_2 xs (Z.to_nat i)) as [x Hx]; [lia|].
    destruct (lookup_lt_is_Some_2 ws (Z.to_nat i)) as [w Hw']; [lia|].
    rewrite (bind_done _ _ _ _ _ (load_in_bounds _ _ _ _ _ Hin Hi Hx)).
    rewrite (bind_done _ _ _ _ _ (load_in_bounds _ _ _ _ _ Hw Hi Hw')).
    rewrite (IH fuel (i + 1)) by lia.
    rewrite (drop_S xs x (Z.to_nat i) Hx), (drop_S ws w (Z.to_nat i) Hw').
    replace (Z.to_nat (i + 1)) with (S (Z.to_nat i)) by lia.
    reflexivity.
Qed.

(** With the count beyond one of the arrays the loop reaches the first
    index that lies outside and reads there. *)
Lemma perceptron_loop_overrun n d : forall fuel i sum,
  0 <= i ->
  Z.to_nat (Z.min (Z.of_nat (length xs)) (Z.of_nat (length ws)) - i) = d ->
  i <= Z.min (Z.of_nat (length xs)) (Z.of_nat (length ws)) ->
  Z.min (Z.of_nat (length xs)) (Z.of_nat (length ws)) < n ->
  (Z.to_nat (n - i) <= fuel)%nat ->
  perceptron_loop fuel inputs weights n i sum s = OutOfBounds.
Proof.
  induction d as [|d IH]; intros fuel i sum Hi Hd Hle Hn Hfuel;
    (destruct fuel as [|fuel]; [lia|]); rewrite perceptron_loop_step by lia.
  - destruct (Z.le_gt_cases (Z.of_nat (length xs)) i) as [Hx|Hx].
    + unfold bind. rewrite (load_past_end _ _ _ _ Hin Hx). reflexivity.
    + destruct (lookup_lt_is_Some_2 xs (Z.to_nat i)) as [x Hx']; [lia|].
      rewrite (bind_done _ _ _ _ _ (load_in_bounds _ _ _ _ _ Hin Hi Hx')).
      unfold bind. rewrite (load_past_end _ _ _ _ Hw) by lia. reflexivity.
  - destruct (lookup_lt_is_Some_2 xs (Z.to_nat i)) as [x Hx]; [lia|].
    destruct (lookup_lt_is_Some_2 ws (Z.to_nat i)) as [w Hw']; [lia|].
    rewrite (bind_done _ _ _ _ _ (load_in_bounds _ _ _ _ _ Hin Hi Hx)).
    rewrite (bind_done _ _ _ _ _ (load_in_bounds _ _ _ _ _ Hw Hi Hw')).
    apply IH; lia.
Qed.

Lemma weighted_sum_run bias n :
  n <= Z.of_nat (length xs) -> n <= Z.of_nat (length ws) ->
  weighted_sum inputs weights bias n s =
  Done (weighted_sum_spec xs ws bias (Z.to_nat n)) s.
Proof.
  intros Hxs Hws. unfold weighted_sum, weighted_sum_spec.
  rewrite (perceptron_loop_run n (Z.to_nat n)) by lia. reflexivity.
Qed.

Lemma weighted_sum_overrun bias n :
  Z.of_nat (length xs) < n \/ Z.of_nat (length ws) < n ->
  weighted_sum inputs weights bias n s = OutOfBounds.
Proof.
  intros H. unfold weighted_sum.
  apply (perceptron_loop_overrun n _ _ 0 bias ltac:(lia) eq_refl); lia.
Qed.

End Loop.

Lemma perceptron_loop_frame fuel inputs weights n : forall i sum s r s',
  perceptron_loop fuel inputs weights n i sum s = Done r s' -> s' = s.
Proof.
  induction fuel as [|fuel IH]; intros i sum s r s' H; simpl in H;
    destruct (i <? n); try discriminate;
    try (injection H as _ H; symmetry; exact H).
  unfold bind in H.
  destruct (load inputs i s) as [x s1| |] eqn:E1; try discriminate.
  apply load_frame in E1. subst s1.
  destruct (load weights i s) as [w s2| |] eqn:E2; try discriminate.
  apply load_frame in E2. subst s2.
  exact (IH _ _ _ _ _ H).
Qed.

Lemma perceptron_loop_fuel fuel inputs weights n : forall i sum s,
  (Z.to_nat (n - i) <= fuel)%nat ->
  perceptron_loop fuel inputs weights n i sum s <> OutOfFuel.
Proof.
  induction fuel as [|fuel IH]; intros i sum s Hfuel; simpl;
    destruct (Z.ltb_spec i n); try (exfalso; lia); try (unfold ret; discriminate).
  unfold bind.
  destruct (load inputs i s) as [x s1| |] eqn:E1;
    [|discriminate|destruct (load_fuel _ _ _ E1)].
  destruct (load weights i s1) as [w s2| |] eqn:E2;
    [|discriminate|destruct (load_fuel _ _ _ E2)].
  apply IH. lia.
Qed.

Lemma weighted_sum_no_iteration inputs weights bias n s :
  n <= 0 -> weighted_sum inputs weights bias n s = Done bias s.
Proof.
  intros H. unfold weighted_sum. rewrite perceptron_loop_exit by lia.
  reflexivity.
Qed.

(** The fuel handed to the loop is enough: a call never runs out of it. *)
Lemma perceptron_fuel inputs weights bias n s :
  perceptron inputs weights bias n s <> OutOfFuel.
Proof.
  unfold perceptron, bind, weighted_sum.
  pose proof (perceptron_loop_fuel (Z.to_nat n) inputs weights n 0 bias s
                ltac:(lia)) as H.
  destruct (perceptron_loop (Z.to_nat n) inputs weights n 0 bias s);
    [discriminate|discriminate|congruence].
Qed.

Lemma weighted_sum_frame inputs weights bias n s r s' :
  weighted_sum inputs weights bias n s = Done r s' -> s' = s.
Proof. apply perceptron_loop_frame. Qed.

Lemma perceptron_of_sum inputs weights bias n s sum s' :
  weighted_sum inputs weights bias n s = Done sum s' ->
  perceptron inputs weights bias n s = Done (step_function sum) s'.
Proof. intros H. unfold perceptron. rewrite (bind_done _ _ _ _ _ H). reflexivity. Qed.

Lemma perceptron_inv inputs weights bias n s r s' :
  perceptron inputs weights bias n s = Done r s' ->
  exists sum, weighted_sum inputs weights bias n s = Done sum s'
              /\ r = step_function sum.
Proof.
  unfold perceptron, bind, ret.
  destruct (weighted_sum inputs weights bias n s) as [sum s1| |];
    try discriminate.
  intros H. injection H as <- <-. exists sum. split; reflexivity.
Qed.

(** ** The step function *)

Lemma step_function_cases (x : float32) :
  step_function x =
  match x with
  | S754_zero _ => 1
  | S754_infinity s | S754_finite s _ _ => if s then 0 else 1
  | S754_nan => 0
  end.
Proof. destruct x as [s|s| |s m e]; try destruct s; reflexivity. Qed.

Lemma step_function_binary x : step_function x = 0 \/ step_function x = 1.
Proof.
  rewrite step_function_cases.
  destruct x as [s|s| |s m e]; try destruct s; auto.
Qed.

(** ** Rounding to nearest even *)

(** Case analysis on every comparison [a <? b] of the goal. *)
Ltac case_ltb :=
  repeat match goal with
         | |- context [?a <? ?b] => destruct (Z.ltb_spec a b)
         end.

Lemma pow2_pos k : 0 <= k -> 0 < 2 ^ k.
Proof. intros. apply Z.pow_pos_nonneg; lia. Qed.

Lemma rne_bounds n k : 0 <= k -> n / 2 ^ k <= rne n k <= n / 2 ^ k + 1.
Proof.
  intros Hk. unfold rne.
  destruct (_ <? _); [lia|]. destruct (_ <? _); [lia|].
  destruct (Z.even _); lia.
Qed.

Lemma rne_mono n1 n2 k : 0 <= k -> n1 <= n2 -> rne n1 k <= rne n2 k.
Proof.
  intros Hk Hn. pose proof (pow2_pos k Hk) as HP.
  pose proof (Z.div_le_mono n1 n2 (2 ^ k) HP Hn) as Hq.
  destruct (Z.eq_dec (n1 / 2 ^ k) (n2 / 2 ^ k)) as [E|NE].
  - assert (Hr : n1 mod 2 ^ k <= n2 mod 2 ^ k).
    { pose proof (Z.div_mod n1 (2 ^ k)). pose proof (Z.div_mod n2 (2 ^ k)).
      rewrite E in *. lia. }
    unfold rne. rewrite E.
    case_ltb; destruct (Z.even (n2 / 2 ^ k)); lia.
  - pose proof (rne_bounds n1 k Hk). pose proof (rne_bounds n2 k Hk). lia.
Qed.

Lemma rne_exact a k : 0 <= k -> rne (a * 2 ^ k) k = a.
Proof.
  intros Hk. pose proof (pow2_pos k Hk) as HP. unfold rne.
  rewrite Z.div_mul, Z.mod_mul by lia.
  destruct (Z.ltb_spec (2 * 0) (2 ^ k)); [reflexivity|lia].
Qed.

Lemma rne_scale n k j : 0 <= k -> 0 <= j -> rne (n * 2 ^ j) (k + j) = rne n k.
Proof.
  intros Hk Hj. pose proof (pow2_pos k Hk) as HP. pose proof (pow2_pos j Hj) as HJ.
  unfold rne. rewrite Z.pow_add_r by lia.
  rewrite Z.div_mul_cancel_r, Z.mul_mod_distr_r by lia.
  case_ltb; try reflexivity; nia.
Qed.

Lemma rne_nonneg n k : 0 <= k -> 0 <= n -> 0 <= rne n k.
Proof.
  intros Hk Hn. pose proof (rne_bounds n k Hk).
  pose proof (Z.div_pos n (2 ^ k) Hn (pow2_pos k Hk)). lia.
Qed.

(** *** The number of binary digits *)

Lemma Zdigits2_log2 n : 0 < n -> Zdigits2 n = Z.log2 n + 1.
Proof.
  destruct n as [|p|p]; try lia. intros _. simpl Zdigits2.
  induction p as [p IH|p IH|].
  - change (Z.pos p~1) with (2 * Z.pos p + 1). rewrite Z.log2_succ_double by lia.
    simpl digits2_pos. lia.
  - change (Z.pos p~0) with (2 * Z.pos p). rewrite Z.log2_double by lia.
    simpl digits2_pos. lia.
  - reflexivity.
Qed.

Lemma Zdigits2_pos n : 0 < n -> 0 < Zdigits2 n.
Proof. intros H. rewrite Zdigits2_log2 by lia. pose proof (Z.log2_nonneg n). lia. Qed.

Lemma Zdigits2_bounds n : 0 < n -> 2 ^ (Zdigits2 n - 1) <= n < 2 ^ Zdigits2 n.
Proof.
  intros H. rewrite Zdigits2_log2 by lia.
  replace (Z.log2 n + 1 - 1) with (Z.log2 n) by lia.
  pose proof (Z.log2_spec n H). rewrite <- Z.add_1_r in *. lia.
Qed.

Lemma Zdigits2_unique n d : 2 ^ (d - 1) <= n < 2 ^ d -> 0 < n -> Zdigits2 n = d.
Proof.
  intros H Hn. rewrite Zdigits2_log2 by lia.
  assert (0 < d).
  { destruct (Z.le_gt_cases d 0) as [Hd|]; [|lia].
    destruct (Z.eq_dec d 0) as [->|]; [simpl in H; lia|].
    rewrite (Z.pow_neg_r 2 d) in H by lia. lia. }
  rewrite (Z.log2_unique n (d - 1)); [lia|lia|].
  replace (Z.succ (d - 1)) with d by lia. lia.
Qed.

Lemma Zdigits2_mono n1 n2 : 0 < n1 -> n1 <= n2 -> Zdigits2 n1 <= Zdigits2 n2.
Proof.
  intros H1 H2. rewrite !Zdigits2_log2 by lia.
  pose proof (Z.log2_le_mono n1 n2 H2). lia.
Qed.

Lemma Zdigits2_scale n j : 0 < n -> 0 <= j -> Zdigits2 (n * 2 ^ j) = Zdigits2 n + j.
Proof.
  intros Hn Hj. pose proof (pow2_pos j Hj).
  rewrite !Zdigits2_log2 by nia. rewrite Z.log2_mul_pow2 by lia. lia.
Qed.

Lemma rne_pow2 a k : 0 <= k <= a -> rne (2 ^ a) k = 2 ^ (a - k).
Proof.
  intros H. replace (2 ^ a) with (2 ^ (a - k) * 2 ^ k).
  - apply rne_exact; lia.
  - rewrite <- Z.pow_add_r by lia. f_equal. lia.
Qed.

(** *** Shifts of the mantissa

    [shr] shifts to the right one bit at a time and keeps a round and a
    sticky bit; [shifted] is what holds after every step, and at the end
    [round_nearest_even] picks the integer [rne] names. *)

Lemma shifted_start m0 : 0 <= m0 -> shifted m0 0 (Build_shr_record m0 false false).
Proof.
  intros H. split; [exact H|]. exists 0. simpl. repeat split; try lia; discriminate.
Qed.

Lemma shifted_step m0 j mrs :
  0 <= j -> shifted m0 j mrs -> shifted m0 (j + 1) (shr_1 mrs).
Proof.
  intros Hj [Hm (t & Ht & Heq & Hs)].
  pose proof (pow2_pos j Hj) as HP.
  unfold shifted. rewrite Z.pow_add_r, Z.pow_1_r by lia.
  destruct mrs as [m r s]. simpl in *.
  assert (Hs' : orb r s = true <-> Z.b2z r * 2 ^ j + t <> 0).
  { destruct Hs as [Hs1 Hs2].
    destruct r, s; simpl; split; intros H; try reflexivity; try discriminate;
      try (specialize (Hs1 eq_refl)); try lia; try (apply Hs2; lia). }
  destruct m as [|[p|p|]|p]; try lia; simpl; (split; [lia|]);
    exists (Z.b2z r * 2 ^ j + t); (split; [destruct r; simpl; lia|]);
    (split; [|exact Hs']); simpl Z.b2z; lia.
Qed.

Lemma shifted_iter p : forall m0 j mrs,
  0 <= j -> shifted m0 j mrs -> shifted m0 (j + Z.pos p) (SpecFloat.iter_pos shr_1 p mrs).
Proof.
  induction p as [p IH|p IH|]; intros m0 j mrs Hj H; simpl.
  - replace (j + Z.pos p~1) with (j + 1 + Z.pos p + Z.pos p) by lia.
    apply IH; [lia|]. apply IH; [lia|]. apply shifted_step; assumption.
  - replace (j + Z.pos p~0) with (j + Z.pos p + Z.pos p) by lia.
    apply IH; [lia|]. apply IH; assumption.
  - apply shifted_step; assumption.
Qed.

Lemma shr_shifted m0 e k :
  0 <= m0 -> 0 <= k ->
  exists mrs, shr (Build_shr_record m0 false false) e k = (mrs, e + k)
              /\ shifted m0 k mrs.
Proof.
  intros Hm Hk. destruct k as [|p|p]; try lia.
  - eexists. split; [simpl; f_equal; lia|]. apply shifted_start, Hm.
  - eexists. split; [reflexivity|].
    apply (shifted_iter p m0 0); [lia|]. apply shifted_start, Hm.
Qed.

Lemma shifted_quotient m0 k mrs :
  0 <= k -> shifted m0 k mrs -> shr_m mrs = m0 / 2 ^ k.
Proof.
  intros Hk [Hm (t & Ht & Heq & Hs)]. pose proof (pow2_pos k Hk) as HP.
  apply (Z.div_unique m0 (2 ^ k) (shr_m mrs) (m0 - 2 ^ k * shr_m mrs)); [|lia].
  left. destruct (shr_r mrs); simpl in Heq; lia.
Qed.

Lemma shifted_round m0 k mrs :
  0 <= k -> shifted m0 k mrs ->
  round_nearest_even (shr_m mrs) (loc_of_shr_record mrs) = rne m0 k.
Proof.
  intros Hk H. pose proof (shifted_quotient m0 k mrs Hk H) as Hq.
  destruct H as [Hm (t & Ht & Heq & Hs)]. pose proof (pow2_pos k Hk) as HP.
  unfold rne. rewrite <- Hq.
  assert (Hr : 2 * (m0 mod 2 ^ k) = Z.b2z (shr_r mrs) * 2 ^ k + t).
  { rewrite Z.mod_eq by lia. rewrite <- Hq. lia. }
  rewrite Hr. destruct mrs as [m r s]. simpl in *.
  destruct r, s; simpl; case_ltb; try reflexivity; lia.
Qed.

(** [shl_align] shifts to the left, down to a smaller exponent. *)
Lemma pos_iter_xO m d : Z.pos (Pos.iter xO m d) = Z.pos m * 2 ^ Z.pos d.
Proof.
  induction d as [|d IH] using Pos.peano_ind.
  - simpl. lia.
  - rewrite Pos.iter_succ, Pos2Z.inj_xO, IH, Pos2Z.inj_succ, Z.pow_succ_r by lia.
    lia.
Qed.

Lemma shl_align_spec m e e1 :
  snd (shl_align m e e1) = Z.min e e1
  /\ Z.pos (fst (shl_align m e e1)) = Z.pos m * 2 ^ (e - Z.min e e1).
Proof.
  unfold shl_align. destruct (e1 - e) as [|d|d] eqn:E; simpl.
  - rewrite Z.min_l by lia. rewrite Z.sub_diag. simpl. lia.
  - rewrite Z.min_l by lia. rewrite Z.sub_diag. simpl. lia.
  - rewrite Z.min_r by lia. split; [reflexivity|].
    rewrite pos_iter_xO. f_equal. f_equal. lia.
Qed.

Lemma cond_Zopp_mul s a b : cond_Zopp s a * b = cond_Zopp s (a * b).
Proof. destruct s; simpl; lia. Qed.

(** *** Comparisons with NaNs and infinities *)

Lemma classify x : float_class x.
Proof.
  destruct x as [s|[|]| |s m e];
    [apply class_finite|apply class_ninf|apply class_pinf|apply class_nan
    |apply class_finite]; reflexivity.
Qed.

Lemma SFleb_not_nan x y : SFleb x y = true -> x <> S754_nan /\ y <> S754_nan.
Proof.
  unfold SFleb. intros H. split; intros ->; [discriminate|].
  destruct x; discriminate.
Qed.

Lemma SFltb_not_nan x y : SFltb x y = true -> x <> S754_nan /\ y <> S754_nan.
Proof.
  unfold SFltb. intros H. split; intros ->; [discriminate|].
  destruct x; discriminate.
Qed.

Lemma SFleb_pinf x : x <> S754_nan -> SFleb x (S754_infinity false) = true.
Proof. destruct x as [s|[|]| |[|] m e]; try reflexivity. congruence. Qed.

Lemma SFleb_ninf x : x <> S754_nan -> SFleb (S754_infinity true) x = true.
Proof. destruct x as [s|[|]| |[|] m e]; try reflexivity. congruence. Qed.

Lemma SFleb_ninf_inv x : SFleb x (S754_infinity true) = true -> x = S754_infinity true.
Proof. destruct x as [s|[|]| |[|] m e]; try discriminate. reflexivity. Qed.

Lemma SFleb_pinf_inv x :
  SFleb (S754_infinity false) x = true -> x = S754_infinity false.
Proof. destruct x as [s|[|]| |[|] m e]; try discriminate. reflexivity. Qed.

Lemma nan_dec (x : spec_float) : {x = S754_nan} + {x <> S754_nan}.
Proof. destruct x; (left; reflexivity) || (right; discriminate). Qed.

Lemma SFltb_leb x y : SFltb x y = true -> SFleb x y = true.
Proof. unfold SFltb, SFleb. destruct (SFcompare x y) as [[| |]|]; congruence. Qed.

(** A float above zero is plus infinity or finite with a positive sign. *)
Lemma SFltb_zero_inv w :
  SFltb (S754_zero false) w = true ->
  w = S754_infinity false \/ exists m e, w = S754_finite false m e.
Proof.
  destruct w as [s|[|]| |[|] m e]; try discriminate; eauto.
Qed.

(** ** A binary format of precision [prec] and maximal exponent [emax] *)

Section Binary.
Variables prec emax : Z.
Hypothesis Hprec : 0 < prec.
Hypothesis Hemax : prec < emax.

Local Abbreviation e_min := (emin prec emax).
Local Abbreviation f_exp := (fexp prec emax).
Local Abbreviation round_p := (round_pos prec emax).
Local Abbreviation round_s := (round_scaled prec emax).
Local Abbreviation value := (scaled prec emax).
Local Abbreviation valid := (valid_binary prec emax).
Local Abbreviation rounds := (rounds_to prec emax).
Local Abbreviation below_ := (below prec emax).
Local Abbreviation add := (SFadd prec emax).
Local Abbreviation mul := (SFmul prec emax).

(** *** The rounding function is monotone *)

Lemma fexp_ge_emin e : e_min <= f_exp e.
Proof. unfold fexp. lia. Qed.

Lemma fexp_mono e1 e2 : e1 <= e2 -> f_exp e1 <= f_exp e2.
Proof. unfold fexp. lia. Qed.

Lemma round_pos_nonneg c n : c <= e_min -> 0 < n -> 0 <= round_p c n.
Proof.
  intros Hc Hn. unfold round_pos.
  pose proof (fexp_ge_emin (Zdigits2 n + c)) as He.
  apply Z.min_glb.
  - apply Z.mul_nonneg_nonneg.
    + apply rne_nonneg; lia.
    + apply Z.lt_le_incl, pow2_pos. lia.
  - apply Z.lt_le_incl, pow2_pos. unfold emin. lia.
Qed.

Lemma round_pos_mono c n1 n2 :
  c <= e_min -> 0 < n1 -> n1 <= n2 -> round_p c n1 <= round_p c n2.
Proof.
  intros Hc H1 H12. unfold round_pos.
  apply Z.min_le_compat_r.
  pose proof (Zdigits2_mono n1 n2 H1 H12) as Hd.
  pose proof (fexp_mono (Zdigits2 n1 + c) (Zdigits2 n2 + c) ltac:(lia)) as He.
  pose proof (fexp_ge_emin (Zdigits2 n1 + c)) as He1.
  set (e1 := f_exp (Zdigits2 n1 + c)) in *.
  set (e2 := f_exp (Zdigits2 n2 + c)) in *.
  destruct (Z.eq_dec e1 e2) as [E|NE].
  - rewrite E. apply Z.mul_le_mono_nonneg_r.
    + apply Z.lt_le_incl, pow2_pos. lia.
    + apply rne_mono; lia.
  - assert (He2 : e2 = Zdigits2 n2 + c - prec /\ Zdigits2 n1 < Zdigits2 n2).
    { unfold e1, e2, fexp in *. lia. }
    destruct He2 as [He2 Hlt].
    set (d2 := Zdigits2 n2) in *.
    pose proof (Zdigits2_bounds n1 H1) as [_ Hb1].
    pose proof (Zdigits2_bounds n2 ltac:(lia)) as [Hb2 _]. fold d2 in Hb2.
    assert (HP : 2 ^ Zdigits2 n1 <= 2 ^ (d2 - 1)).
    { apply Z.pow_le_mono_r; lia. }
    transitivity (2 ^ (d2 - 1 + c - e_min)).
    + transitivity (rne (2 ^ (d2 - 1)) (e1 - c) * 2 ^ (e1 - e_min)).
      * apply Z.mul_le_mono_nonneg_r.
        { apply Z.lt_le_incl, pow2_pos. lia. }
        apply rne_mono; lia.
      * rewrite rne_pow2 by lia. rewrite <- Z.pow_add_r by lia.
        apply Z.pow_le_mono_r; lia.
    + transitivity (rne (2 ^ (d2 - 1)) (e2 - c) * 2 ^ (e2 - e_min)).
      * rewrite rne_pow2 by lia. rewrite <- Z.pow_add_r by lia.
        apply Z.pow_le_mono_r; lia.
      * apply Z.mul_le_mono_nonneg_r.
        { apply Z.lt_le_incl, pow2_pos. lia. }
        apply rne_mono; lia.
Qed.

Lemma round_pos_scale c j n :
  0 <= j -> 0 < n -> c + j <= f_exp (Zdigits2 n + (c + j)) ->
  round_p c (n * 2 ^ j) = round_p (c + j) n.
Proof.
  intros Hj Hn Hk. unfold round_pos.
  rewrite Zdigits2_scale by lia.
  replace (Zdigits2 n + j + c) with (Zdigits2 n + (c + j)) by lia.
  set (e' := f_exp (Zdigits2 n + (c + j))) in *.
  replace (e' - c) with (e' - (c + j) + j) by lia.
  rewrite rne_scale by lia. reflexivity.
Qed.

Lemma round_scaled_mono c n1 n2 :
  c <= e_min -> n1 <= n2 -> round_s c n1 <= round_s c n2.
Proof.
  intros Hc H.
  destruct n1 as [|p1|p1], n2 as [|p2|p2]; simpl; try lia.
  - apply round_pos_nonneg; lia.
  - apply round_pos_mono; lia.
  - pose proof (round_pos_nonneg c (Z.pos p1) Hc ltac:(lia)). lia.
  - pose proof (round_pos_nonneg c (Z.pos p1) Hc ltac:(lia)).
    pose proof (round_pos_nonneg c (Z.pos p2) Hc ltac:(lia)). lia.
  - pose proof (round_pos_mono c (Z.pos p2) (Z.pos p1) Hc ltac:(lia) ltac:(lia)).
    lia.
Qed.

(** *** What [binary_round_aux] computes *)

Lemma emin_le_emax : e_min <= emax - prec.
Proof. unfold emin. lia. Qed.

Lemma pow2_split a b : 0 <= a -> 0 <= b -> 2 ^ (a + b) = 2 ^ a * 2 ^ b.
Proof. intros. apply Z.pow_add_r; assumption. Qed.

(** The mantissa after the first rounding. *)
Lemma rne_mantissa m e :
  0 < m -> e <= f_exp (Zdigits2 m + e) ->
  let e' := f_exp (Zdigits2 m + e) in
  let q := rne m (e' - e) in
  0 <= q <= 2 ^ prec /\ (e_min < e' -> 2 ^ (prec - 1) <= q).
Proof.
  intros Hm Hk e' q.
  pose proof (Zdigits2_bounds m Hm) as [Hlo Hhi].
  pose proof (Zdigits2_pos m Hm) as Hd.
  pose proof (rne_bounds m (e' - e) ltac:(lia)) as Hq. fold q in Hq.
  pose proof (pow2_pos (e' - e) ltac:(lia)) as HP.
  assert (He' : Zdigits2 m + e - prec <= e') by (unfold e', fexp; lia).
  split; [split|].
  - pose proof (Z.div_pos m (2 ^ (e' - e)) ltac:(lia) HP). lia.
  - enough (m / 2 ^ (e' - e) < 2 ^ prec) by lia.
    apply Z.div_lt_upper_bound; [lia|].
    rewrite <- pow2_split by lia.
    eapply Z.lt_le_trans; [exact Hhi|]. apply Z.pow_le_mono_r; lia.
  - intros Hn. assert (e' = Zdigits2 m + e - prec) by (unfold e', fexp in *; lia).
    enough (2 ^ (prec - 1) <= m / 2 ^ (e' - e)) by lia.
    apply Z.div_le_lower_bound; [lia|].
    rewrite <- pow2_split by lia.
    eapply Z.le_trans; [|exact Hlo]. apply Z.pow_le_mono_r; lia.
Qed.

(** The second shift: it moves one bit when the rounding carried into a
    new digit and nothing otherwise; the result is canonical. *)
Lemma shr_fexp_renormalize q e' :
  0 < q <= 2 ^ prec -> e_min <= e' -> (e_min < e' -> 2 ^ (prec - 1) <= q) ->
  exists mrs e'', shr_fexp prec emax q e' loc_Exact = (mrs, e'')
    /\ 0 < shr_m mrs
    /\ shr_m mrs * 2 ^ (e'' - e_min) = q * 2 ^ (e' - e_min)
    /\ f_exp (Zdigits2 (shr_m mrs) + e'') = e''
    /\ Zdigits2 (shr_m mrs) <= prec
    /\ (e_min < e'' -> Zdigits2 (shr_m mrs) = prec).
Proof.
  intros [Hq0 Hq1] He Hn.
  pose proof (Zdigits2_bounds q Hq0) as [Hlo Hhi].
  pose proof (Zdigits2_pos q Hq0) as Hd.
  unfold shr_fexp. simpl shr_record_of_loc.
  destruct (Z.eq_dec q (2 ^ prec)) as [E|NE].
  - assert (Hdq : Zdigits2 q = prec + 1).
    { apply Zdigits2_unique; [|lia]. subst q.
      replace (prec + 1 - 1) with prec by lia. split; [lia|].
      apply Z.pow_lt_mono_r; lia. }
    rewrite Hdq.
    replace (f_exp (prec + 1 + e') - e') with 1 by (unfold fexp; lia).
    destruct (shr_shifted q e' 1 ltac:(lia) ltac:(lia)) as (mrs & Hshr & Hsh).
    exists mrs, (e' + 1). split; [exact Hshr|].
    pose proof (shifted_quotient q 1 mrs ltac:(lia) Hsh) as Hm.
    assert (Hm' : shr_m mrs = 2 ^ (prec - 1)).
    { rewrite Hm, E. replace prec with (prec - 1 + 1) at 1 by lia.
      rewrite pow2_split by lia. apply Z.div_mul. lia. }
    pose proof (pow2_pos (prec - 1) ltac:(lia)) as HP.
    assert (Hdm : Zdigits2 (shr_m mrs) = prec).
    { apply Zdigits2_unique; [|lia]. rewrite Hm'. split; [lia|].
      apply Z.pow_lt_mono_r; lia. }
    rewrite Hdm. repeat split; try lia.
    + rewrite Hm', E. rewrite <- !pow2_split by lia. f_equal. lia.
    + unfold fexp. lia.
  - assert (Hdq : Zdigits2 q <= prec).
    { destruct (Z.le_gt_cases (Zdigits2 q) prec) as [|Hgt]; [assumption|].
      exfalso. assert (2 ^ prec <= 2 ^ (Zdigits2 q - 1)) by (apply Z.pow_le_mono_r; lia).
      lia. }
    exists (Build_shr_record q false false), e'. split.
    { assert (Hs : f_exp (Zdigits2 q + e') - e' <= 0) by (unfold fexp; lia).
      destruct (f_exp (Zdigits2 q + e') - e') as [|p|p]; try reflexivity; lia. }
    simpl shr_m. repeat split; try lia.
    + unfold fexp.
      destruct (Z.eq_dec e' e_min) as [->|Hne]; [lia|].
      specialize (Hn ltac:(lia)).
      assert (prec <= Zdigits2 q); [|lia].
      destruct (Z.le_gt_cases prec (Zdigits2 q)) as [|Hlt]; [assumption|].
      exfalso. assert (2 ^ Zdigits2 q <= 2 ^ (prec - 1)) by (apply Z.pow_le_mono_r; lia).
      lia.
    + intros Hlt. specialize (Hn Hlt).
      destruct (Z.le_gt_cases prec (Zdigits2 q)) as [|Hlt']; [lia|].
      exfalso. assert (2 ^ Zdigits2 q <= 2 ^ (prec - 1)) by (apply Z.pow_le_mono_r; lia).
      lia.
Qed.

(** The rounding of [m * 2^e], for a mantissa that has no fewer digits
    than the format keeps. *)
Lemma binary_round_aux_correct s m e :
  e <= f_exp (Zdigits2 (Z.pos m) + e) ->
  rounds (binary_round_aux prec emax s (Z.pos m) e loc_Exact) s
    (round_p e (Z.pos m)).
Proof.
  intros Hk. unfold binary_round_aux.
  pose proof (rne_mantissa (Z.pos m) e ltac:(lia) Hk) as Hq. cbv zeta in Hq.
  unfold round_pos.
  set (e' := f_exp (Zdigits2 (Z.pos m) + e)) in *.
  pose proof (fexp_ge_emin (Zdigits2 (Z.pos m) + e)) as He'. fold e' in He'.
  unfold shr_fexp at 1. simpl shr_record_of_loc. fold e'. clearbody e'.
  set (q := rne (Z.pos m) (e' - e)) in *.
  destruct Hq as [[Hq0 Hq1] Hqn].
  assert (Hke : 0 <= e' - e) by (clear Hqn; lia).
  destruct (shr_shifted (Z.pos m) e (e' - e) ltac:(clear; lia) Hke)
    as (mrs & Hshr & Hsh).
  rewrite Hshr. replace (e + (e' - e)) with e' by (clear; lia).
  rewrite (shifted_round _ _ _ Hke Hsh). fold q.
  pose proof (pow2_pos (emax - e_min) ltac:(unfold emin; clear Hqn; lia)) as Hcap.
  destruct (Z.eq_dec q 0) as [E|NE].
  - rewrite E. unfold shr_fexp. simpl Zdigits2. simpl shr_record_of_loc.
    assert (Hs : f_exp (0 + e') - e' <= 0) by (unfold fexp; lia).
    replace (shr (Build_shr_record 0 false false) e' (f_exp (0 + e') - e'))
      with (Build_shr_record 0 false false, e').
    2:{ destruct (f_exp (0 + e') - e') as [|p|p]; try reflexivity; lia. }
    simpl. split; [reflexivity|]. split; [discriminate|].
    rewrite Z.min_l by (clear Hqn; lia). destruct s; reflexivity.
  - destruct (shr_fexp_renormalize q e' ltac:(clear Hqn; lia) He' Hqn)
      as (mrs2 & e2 & Hshr2 & Hm2 & Hval & Hcan & Hd2 & Hnorm).
    rewrite Hshr2. clear Hqn.
    pose proof (Zdigits2_bounds (shr_m mrs2) Hm2) as [Hlo Hhi].
    pose proof (fexp_ge_emin (Zdigits2 (shr_m mrs2) + e2)) as He2.
    rewrite Hcan in He2.
    pose proof (pow2_pos (e2 - e_min) ltac:(lia)) as HP2.
    pose proof emin_le_emax as Hmm.
    pose proof (Zdigits2_pos (shr_m mrs2) Hm2) as Hdp.
    destruct (shr_m mrs2) as [|m2|m2] eqn:Em2; try (clear Hnorm; lia).
    destruct (Z.leb_spec e2 (emax - prec)) as [Hle|Hgt].
    + clear Hnorm. split; [|split; [discriminate|]].
      * simpl. unfold bounded, canonical_mantissa.
        simpl Zdigits2 in Hcan. rewrite Hcan, Z.eqb_refl. simpl.
        apply Z.leb_le. exact Hle.
      * simpl. f_equal. rewrite Z.min_l; [exact Hval|].
        rewrite <- Hval.
        assert (2 ^ Zdigits2 (Z.pos m2) * 2 ^ (e2 - e_min) <= 2 ^ (emax - e_min)).
        { rewrite <- pow2_split by lia. apply Z.pow_le_mono_r; lia. }
        nia.
    + split; [reflexivity|]. split; [discriminate|].
      simpl. f_equal. rewrite Z.min_r; [reflexivity|].
      rewrite <- Hval. assert (Hlt : e_min < e2) by (clear Hnorm; lia).
      specialize (Hnorm Hlt).
      assert (2 ^ (emax - e_min) <= 2 ^ (Zdigits2 (Z.pos m2) - 1) * 2 ^ (e2 - e_min)).
      { rewrite <- pow2_split by lia. apply Z.pow_le_mono_r; lia. }
      nia.
Qed.

(** *** Sums and products of finite floats *)

Lemma round_scaled_pos c n : 0 < n -> round_s c n = round_p c n.
Proof. intros H. destruct n; try lia; reflexivity. Qed.

Lemma round_scaled_opp c n : round_s c (- n) = - round_s c n.
Proof.
  destruct n as [|p|p]; [reflexivity|reflexivity|].
  change (round_s c (- Z.neg p)) with (round_p c (Z.pos p)).
  change (round_s c (Z.neg p)) with (- round_p c (Z.pos p)). lia.
Qed.

Lemma round_scaled_cond_Zopp c s n :
  round_s c (cond_Zopp s n) = cond_Zopp s (round_s c n).
Proof. destruct s; simpl; [apply round_scaled_opp|reflexivity]. Qed.

(** What validity says of a finite float. *)
Lemma valid_finite s m e :
  valid (S754_finite s m e) = true ->
  f_exp (Zdigits2 (Z.pos m) + e) = e /\ e_min <= e <= emax - prec
  /\ Zdigits2 (Z.pos m) <= prec /\ (e_min < e -> Zdigits2 (Z.pos m) = prec).
Proof.
  intros H. simpl in H. unfold bounded, canonical_mantissa in H.
  apply andb_true_iff in H. destruct H as [H1 H2].
  apply Z.eqb_eq in H1. apply Z.leb_le in H2.
  change (Z.pos (digits2_pos m)) with (Zdigits2 (Z.pos m)) in H1.
  split; [exact H1|]. unfold fexp in *. lia.
Qed.

Lemma binary_round_correct s m e c :
  c <= e -> c <= e_min ->
  rounds (binary_round prec emax s m e) s (round_p c (Z.pos m * 2 ^ (e - c))).
Proof.
  intros Hce Hc. unfold binary_round.
  pose proof (shl_align_spec m e (f_exp (Z.pos (digits2_pos m) + e))) as [Hs Hf].
  destruct (shl_align m e (f_exp (Z.pos (digits2_pos m) + e))) as [mz ez].
  simpl in Hs, Hf. change (Z.pos (digits2_pos m)) with (Zdigits2 (Z.pos m)) in *.
  pose proof (fexp_ge_emin (Zdigits2 (Z.pos m) + e)) as He1.
  set (e1 := f_exp (Zdigits2 (Z.pos m) + e)) in *.
  assert (Hd : Zdigits2 (Z.pos mz) + ez = Zdigits2 (Z.pos m) + e).
  { rewrite Hf, Zdigits2_scale by lia. lia. }
  assert (Hpre : ez <= f_exp (Zdigits2 (Z.pos mz) + ez)).
  { rewrite Hd. fold e1. lia. }
  replace (Z.pos m * 2 ^ (e - c)) with (Z.pos mz * 2 ^ (ez - c)).
  - rewrite round_pos_scale; try lia.
    + replace (c + (ez - c)) with ez by lia.
      apply binary_round_aux_correct; assumption.
    + replace (c + (ez - c)) with ez by lia. exact Hpre.
  - rewrite Hf, <- Z.mul_assoc, <- pow2_split by lia. f_equal. f_equal. lia.
Qed.

Lemma binary_normalize_correct n e sz c :
  c <= e -> c <= e_min ->
  let x := binary_normalize prec emax n e sz in
  valid x = true /\ x <> S754_nan /\ value x = round_s c (n * 2 ^ (e - c)).
Proof.
  intros Hce Hc. pose proof (pow2_pos (e - c) ltac:(lia)) as HP.
  destruct n as [|p|p]; simpl.
  - repeat split. discriminate.
  - destruct (binary_round_correct false p e c Hce Hc) as (Hv & Hn & Hval).
    repeat split; try assumption. rewrite Hval. simpl.
    symmetry. apply round_scaled_pos. lia.
  - destruct (binary_round_correct true p e c Hce Hc) as (Hv & Hn & Hval).
    repeat split; try assumption. rewrite Hval. simpl.
    change (Z.neg p * 2 ^ (e - c)) with (- Z.pos p * 2 ^ (e - c)).
    rewrite Z.mul_opp_l, round_scaled_opp. f_equal.
    symmetry. apply round_scaled_pos. lia.
Qed.

(** A value of the format rounds to itself. *)
Lemma round_scaled_id x :
  valid x = true -> is_finite x = true -> round_s e_min (value x) = value x.
Proof.
  intros Hv Hf. destruct x as [s|s| |s m e]; try discriminate; [reflexivity|].
  apply valid_finite in Hv. destruct Hv as (Hcan & [He1 He2] & Hd & _).
  simpl. rewrite round_scaled_cond_Zopp. f_equal.
  pose proof (pow2_pos (e - e_min) ltac:(lia)) as HP.
  rewrite round_scaled_pos by lia.
  rewrite round_pos_scale; try lia.
  2:{ replace (e_min + (e - e_min)) with e by lia. lia. }
  replace (e_min + (e - e_min)) with e by lia.
  unfold round_pos. rewrite Hcan, Z.sub_diag.
  replace (Z.pos m) with (Z.pos m * 2 ^ 0) at 1 by (simpl; lia).
  rewrite rne_exact by lia. apply Z.min_l.
  pose proof (Zdigits2_bounds (Z.pos m) ltac:(lia)) as [_ Hhi].
  pose proof (Zdigits2_pos (Z.pos m) ltac:(lia)) as Hdp.
  assert (2 ^ Zdigits2 (Z.pos m) * 2 ^ (e - e_min) <= 2 ^ (emax - e_min)).
  { rewrite <- pow2_split by lia. apply Z.pow_le_mono_r; lia. }
  nia.
Qed.

(** The sum of two finite floats is the rounding of the exact sum. *)
Lemma SFadd_finite x y :
  valid x = true -> valid y = true -> is_finite x = true -> is_finite y = true ->
  valid (SFadd prec emax x y) = true
  /\ SFadd prec emax x y <> S754_nan
  /\ value (SFadd prec emax x y) = round_s e_min (value x + value y).
Proof.
  intros Hvx Hvy Hfx Hfy.
  destruct x as [sx|sx| |sx mx ex]; try discriminate;
    destruct y as [sy|sy| |sy my ey]; try discriminate.
  - destruct sx, sy; simpl; repeat split; discriminate.
  - simpl SFadd. split; [exact Hvy|]. split; [discriminate|].
    symmetry. apply (round_scaled_id (S754_finite sy my ey)); assumption.
  - simpl SFadd. split; [exact Hvx|]. split; [discriminate|].
    change (value (S754_zero sy)) with 0. rewrite Z.add_0_r.
    symmetry. apply (round_scaled_id (S754_finite sx mx ex)); assumption.
  - apply valid_finite in Hvx, Hvy.
    destruct Hvx as (_ & [Hx1 _] & _). destruct Hvy as (_ & [Hy1 _] & _).
    unfold SFadd.
    pose proof (shl_align_spec mx ex (Z.min ex ey)) as [_ Hmx].
    pose proof (shl_align_spec my ey (Z.min ex ey)) as [_ Hmy].
    rewrite Hmx, Hmy.
    replace (Z.min ex (Z.min ex ey)) with (Z.min ex ey) by lia.
    replace (Z.min ey (Z.min ex ey)) with (Z.min ex ey) by lia.
    set (ez := Z.min ex ey).
    assert (Hez : e_min <= ez) by (unfold ez; lia).
    pose proof (binary_normalize_correct
      (cond_Zopp sx (Z.pos mx * 2 ^ (ex - ez)) + cond_Zopp sy (Z.pos my * 2 ^ (ey - ez)))
      ez false e_min Hez ltac:(lia)) as (Hv & Hn & Hval).
    split; [exact Hv|]. split; [exact Hn|]. rewrite Hval. f_equal.
    rewrite Z.mul_add_distr_r, !cond_Zopp_mul, <- !Z.mul_assoc, <- !pow2_split
      by (unfold ez; lia).
    simpl. f_equal; f_equal; f_equal; f_equal; lia.
Qed.

Lemma emin_nonpos : e_min <= 0.
Proof. unfold emin. lia. Qed.

Lemma Zdigits2_mul m1 m2 :
  0 < m1 -> 0 < m2 -> Zdigits2 m1 + Zdigits2 m2 - 1 <= Zdigits2 (m1 * m2).
Proof.
  intros H1 H2.
  pose proof (Zdigits2_bounds m1 H1) as [L1 _].
  pose proof (Zdigits2_bounds m2 H2) as [L2 _].
  pose proof (Zdigits2_bounds (m1 * m2) ltac:(nia)) as [_ U].
  pose proof (Zdigits2_pos m1 H1). pose proof (Zdigits2_pos m2 H2).
  pose proof (Zdigits2_pos (m1 * m2) ltac:(nia)).
  destruct (Z.le_gt_cases (Zdigits2 m1 + Zdigits2 m2 - 1) (Zdigits2 (m1 * m2)))
    as [|Hlt]; [assumption|exfalso].
  assert (2 ^ Zdigits2 (m1 * m2) <= 2 ^ (Zdigits2 m1 - 1) * 2 ^ (Zdigits2 m2 - 1)).
  { rewrite <- pow2_split by lia. apply Z.pow_le_mono_r; lia. }
  pose proof (pow2_pos (Zdigits2 m1 - 1) ltac:(lia)).
  pose proof (pow2_pos (Zdigits2 m2 - 1) ltac:(lia)).
  nia.
Qed.

(** The product of two finite floats is the rounding of the exact
    product. *)
Lemma SFmul_finite x y :
  valid x = true -> valid y = true -> is_finite x = true -> is_finite y = true ->
  valid (SFmul prec emax x y) = true
  /\ SFmul prec emax x y <> S754_nan
  /\ value (SFmul prec emax x y) = round_s (2 * e_min) (value x * value y).
Proof.
  intros Hvx Hvy Hfx Hfy.
  destruct x as [sx|sx| |sx mx ex]; try discriminate;
    destruct y as [sy|sy| |sy my ey]; try discriminate;
    try (simpl; rewrite ?Z.mul_0_r; repeat split; discriminate).
  apply valid_finite in Hvx, Hvy; try assumption.
  destruct Hvx as (_ & [Hx1 _] & Hdx & Hnx). destruct Hvy as (_ & [Hy1 _] & Hdy & Hny).
  pose proof emin_nonpos as He0.
  pose proof (Zdigits2_mul (Z.pos mx) (Z.pos my) ltac:(lia) ltac:(lia)) as Hd.
  pose proof (Zdigits2_pos (Z.pos mx) ltac:(lia)) as Hpx.
  pose proof (Zdigits2_pos (Z.pos my) ltac:(lia)) as Hpy.
  assert (Hpre : ex + ey <= f_exp (Zdigits2 (Z.pos (mx * my)) + (ex + ey))).
  { rewrite Pos2Z.inj_mul. unfold fexp.
    destruct (Z.eq_dec ex e_min) as [Ex|Ex].
    - destruct (Z.eq_dec ey e_min) as [Ey|Ey]; [clear Hnx Hny; lia|].
      assert (Hlt : e_min < ey) by (clear Hnx Hny; lia).
      specialize (Hny Hlt). clear Hnx. lia.
    - assert (Hlt : e_min < ex) by (clear Hnx Hny; lia).
      specialize (Hnx Hlt). clear Hny. lia. }
  clear Hnx Hny.
  destruct (binary_round_aux_correct (xorb sx sy) (mx * my)
              (ex + ey) Hpre) as (Hv & Hn & Hval).
  unfold SFmul. split; [exact Hv|]. split; [exact Hn|]. rewrite Hval.
  simpl scaled.
  replace (cond_Zopp sx (Z.pos mx * 2 ^ (ex - e_min))
           * cond_Zopp sy (Z.pos my * 2 ^ (ey - e_min)))
    with (cond_Zopp (xorb sx sy)
            (Z.pos (mx * my) * 2 ^ (ex + ey - 2 * e_min))).
  2:{ replace (ex + ey - 2 * e_min) with ((ex - e_min) + (ey - e_min)) by lia.
      rewrite pow2_split, Pos2Z.inj_mul by lia.
      destruct sx, sy; simpl; lia. }
  rewrite round_scaled_cond_Zopp. f_equal.
  pose proof (pow2_pos (ex + ey - 2 * e_min) ltac:(lia)).
  rewrite round_scaled_pos by lia.
  rewrite round_pos_scale; try lia.
  - f_equal. lia.
  - replace (2 * e_min + (ex + ey - 2 * e_min)) with (ex + ey) by lia. exact Hpre.
Qed.

(** *** The order of the floats of the format *)

(** The magnitude of a finite float lies below that of the infinities. *)
Lemma finite_scaled_bounds s m e :
  valid (S754_finite s m e) = true ->
  0 < Z.pos m * 2 ^ (e - e_min) < 2 ^ (emax - e_min).
Proof.
  intros Hv. apply valid_finite in Hv; try assumption.
  destruct Hv as (_ & [He1 He2] & Hd & _).
  pose proof (pow2_pos (e - e_min) ltac:(lia)) as HP.
  pose proof (Zdigits2_bounds (Z.pos m) ltac:(lia)) as [_ Hhi].
  pose proof (Zdigits2_pos (Z.pos m) ltac:(lia)) as Hdp.
  assert (2 ^ Zdigits2 (Z.pos m) * 2 ^ (e - e_min) <= 2 ^ (emax - e_min)).
  { rewrite <- pow2_split by lia. apply Z.pow_le_mono_r; lia. }
  nia.
Qed.

Lemma finite_scaled_lt s1 m1 e1 s2 m2 e2 :
  valid (S754_finite s1 m1 e1) = true -> valid (S754_finite s2 m2 e2) = true ->
  e1 < e2 -> Z.pos m1 * 2 ^ (e1 - e_min) < Z.pos m2 * 2 ^ (e2 - e_min).
Proof.
  intros H1 H2 Hlt. apply valid_finite in H1, H2; try assumption.
  destruct H1 as (_ & [He1 _] & Hd1 & _). destruct H2 as (_ & _ & _ & Hn2).
  assert (Hlt2 : e_min < e2) by (clear Hn2; lia). specialize (Hn2 Hlt2).
  pose proof (pow2_pos (e1 - e_min) ltac:(lia)) as HP1.
  pose proof (pow2_pos (e2 - e_min) ltac:(lia)) as HP2.
  pose proof (Zdigits2_bounds (Z.pos m1) ltac:(lia)) as [_ Hhi].
  pose proof (Zdigits2_bounds (Z.pos m2) ltac:(lia)) as [Hlo _].
  pose proof (Zdigits2_pos (Z.pos m1) ltac:(lia)) as Hdp.
  assert (2 ^ Zdigits2 (Z.pos m1) * 2 ^ (e1 - e_min)
          <= 2 ^ (Zdigits2 (Z.pos m2) - 1) * 2 ^ (e2 - e_min)).
  { rewrite <- !pow2_split by lia. apply Z.pow_le_mono_r; lia. }
  nia.
Qed.

Lemma finite_scaled_compare s1 m1 e1 s2 m2 e2 :
  valid (S754_finite s1 m1 e1) = true -> valid (S754_finite s2 m2 e2) = true ->
  match e1 ?= e2 with
  | Lt => Lt
  | Gt => Gt
  | Eq => Pos.compare_cont Eq m1 m2
  end = (Z.pos m1 * 2 ^ (e1 - e_min) ?= Z.pos m2 * 2 ^ (e2 - e_min)).
Proof.
  intros H1 H2. destruct (Z.compare_spec e1 e2) as [E|L|G]; symmetry.
  - subst e2. apply valid_finite in H1; try assumption.
    destruct H1 as (_ & [He1 _] & _).
    rewrite <- Zmult_compare_compat_r by (apply Z.lt_gt, pow2_pos; lia).
    reflexivity.
  - apply Z.compare_lt_iff. exact (finite_scaled_lt _ _ _ _ _ _ H1 H2 L).
  - apply Z.compare_gt_iff. exact (finite_scaled_lt _ _ _ _ _ _ H2 H1 G).
Qed.

(** On floats of the format the comparison is that of the scaled values. *)
Lemma SFcompare_scaled x y :
  valid x = true -> valid y = true -> x <> S754_nan -> y <> S754_nan ->
  SFcompare x y = Some (value x ?= value y).
Proof.
  intros Hvx Hvy Hnx Hny.
  pose proof (pow2_pos (emax - e_min) ltac:(unfold emin; lia)) as Hcap.
  destruct x as [sx|sx| |sx mx ex]; try congruence;
    destruct y as [sy|sy| |sy my ey]; try congruence;
    try pose proof (finite_scaled_bounds _ _ _ Hvx) as Hbx;
    try pose proof (finite_scaled_bounds _ _ _ Hvy) as Hby;
    try pose proof (finite_scaled_compare _ _ _ _ _ _ Hvx Hvy) as Hc;
    try pose proof (finite_scaled_compare _ _ _ _ _ _ Hvy Hvx) as Hc';
    cbn [SFcompare scaled]; f_equal; symmetry;
    try (destruct sx); try (destruct sy); cbn [cond_Zopp];
    try (apply Z.compare_eq_iff; lia);
    try (apply Z.compare_lt_iff; lia);
    try (apply Z.compare_gt_iff; lia).
  - rewrite Z.compare_opp, <- Hc', (Z.compare_antisym ex ey).
    destruct (ex ?= ey); simpl; try reflexivity. apply ZC4.
  - symmetry. exact Hc.
Qed.

Lemma SFleb_scaled x y :
  valid x = true -> valid y = true -> x <> S754_nan -> y <> S754_nan ->
  SFleb x y = true <-> value x <= value y.
Proof.
  intros Hvx Hvy Hnx Hny. unfold SFleb.
  rewrite (SFcompare_scaled x y) by assumption.
  destruct (Z.compare_spec (value x) (value y)); split; intros; try lia;
    try reflexivity; discriminate.
Qed.

Lemma SFltb_scaled x y :
  valid x = true -> valid y = true -> x <> S754_nan -> y <> S754_nan ->
  SFltb x y = true <-> value x < value y.
Proof.
  intros Hvx Hvy Hnx Hny. unfold SFltb.
  rewrite (SFcompare_scaled x y) by assumption.
  destruct (Z.compare_spec (value x) (value y)); split; intros; try lia;
    try reflexivity; discriminate.
Qed.

(** *** Monotone sums and products *)

Lemma SFadd_valid x y :
  valid x = true -> valid y = true -> valid (add x y) = true.
Proof.
  intros Hx Hy.
  destruct (is_finite x) eqn:Fx, (is_finite y) eqn:Fy;
    [exact (proj1 (SFadd_finite x y Hx Hy Fx Fy))| | |];
    destruct x as [[|]|[|]| |[|] mx ex], y as [[|]|[|]| |[|] my ey];
    try discriminate; reflexivity.
Qed.

Lemma SFmul_valid x y :
  valid x = true -> valid y = true -> valid (mul x y) = true.
Proof.
  intros Hx Hy.
  destruct (is_finite x) eqn:Fx, (is_finite y) eqn:Fy;
    [exact (proj1 (SFmul_finite x y Hx Hy Fx Fy))| | |];
    destruct x as [[|]|[|]| |[|] mx ex], y as [[|]|[|]| |[|] my ey];
    try discriminate; reflexivity.
Qed.

(** A dead operand makes the sum dead. *)
Lemma dead_add_l x y : dead x -> dead (add x y).
Proof.
  intros [->| ->]; [left; reflexivity|].
  destruct y as [s|[|]| |s m e]; simpl; unfold dead; auto.
Qed.

Lemma dead_add_r x y : dead y -> dead (add x y).
Proof.
  intros [->| ->]; [left; destruct x; reflexivity|].
  destruct x as [s|[|]| |s m e]; simpl; unfold dead; auto.
Qed.

(** Where a sum of two floats that are not NaNs is a NaN. *)
Lemma SFadd_nan_inv x y :
  valid x = true -> valid y = true ->
  x <> S754_nan -> y <> S754_nan -> add x y = S754_nan ->
  (x = S754_infinity false /\ y = S754_infinity true)
  \/ (x = S754_infinity true /\ y = S754_infinity false).
Proof.
  intros Hx Hy Hnx Hny H.
  destruct (is_finite x) eqn:Fx, (is_finite y) eqn:Fy.
  { destruct (SFadd_finite x y Hx Hy Fx Fy) as (_ & Hn & _).
    congruence. }
  all: destruct x as [[|]|[|]| |[|] mx ex], y as [[|]|[|]| |[|] my ey];
    try discriminate; try congruence; auto.
Qed.

Lemma SFadd_mono a a' p p' :
  valid a = true -> valid a' = true -> valid p = true -> valid p' = true ->
  SFleb a a' = true -> SFleb p p' = true ->
  add a p <> S754_nan -> add a' p' <> S754_nan ->
  SFleb (add a p) (add a' p') = true.
Proof.
  intros Va Va' Vp Vp' Ha Hp Hn Hn'.
  destruct (SFleb_not_nan _ _ Ha) as [Na Na'].
  destruct (SFleb_not_nan _ _ Hp) as [Np Np'].
  destruct (classify a') as [->| ->| ->|Fa']; try congruence.
  { replace (add (S754_infinity false) p') with (S754_infinity false).
    - apply SFleb_pinf, Hn.
    - destruct p' as [s|[|]| |s m e]; try reflexivity; simpl in Hn'; congruence. }
  { apply SFleb_ninf_inv in Ha. subst a.
    replace (add (S754_infinity true) p) with (S754_infinity true).
    - apply SFleb_ninf, Hn'.
    - destruct p as [s|[|]| |s m e]; try reflexivity; simpl in Hn; congruence. }
  destruct (classify p') as [->| ->| ->|Fp']; try congruence.
  { replace (add a' (S754_infinity false)) with (S754_infinity false).
    - apply SFleb_pinf, Hn.
    - destruct a' as [s|[|]| |s m e]; try reflexivity; simpl in Hn'; congruence. }
  { apply SFleb_ninf_inv in Hp. subst p.
    replace (add a (S754_infinity true)) with (S754_infinity true).
    - apply SFleb_ninf, Hn'.
    - destruct a as [s|[|]| |s m e]; try reflexivity; simpl in Hn; congruence. }
  destruct (classify a) as [->| ->| ->|Fa]; try congruence.
  { apply SFleb_pinf_inv in Ha. subst a'. discriminate. }
  { replace (add (S754_infinity true) p) with (S754_infinity true).
    - apply SFleb_ninf, Hn'.
    - destruct p as [s|[|]| |s m e]; try reflexivity; simpl in Hn; congruence. }
  destruct (classify p) as [->| ->| ->|Fp]; try congruence.
  { apply SFleb_pinf_inv in Hp. subst p'. discriminate. }
  { replace (add a (S754_infinity true)) with (S754_infinity true).
    - apply SFleb_ninf, Hn'.
    - destruct a as [s|[|]| |s m e]; try reflexivity; simpl in Hn; congruence. }
  destruct (SFadd_finite a p Va Vp Fa Fp) as (V1 & N1 & E1).
  destruct (SFadd_finite a' p' Va' Vp' Fa' Fp') as (V2 & N2 & E2).
  apply SFleb_scaled; try assumption.
  rewrite E1, E2. apply round_scaled_mono; try assumption; [lia|].
  apply SFleb_scaled in Ha, Hp; try assumption. lia.
Qed.

Lemma SFmul_mono x x' w :
  valid x = true -> valid x' = true -> valid w = true ->
  SFleb x x' = true -> SFltb (S754_zero false) w = true ->
  mul x w <> S754_nan -> mul x' w <> S754_nan ->
  SFleb (mul x w) (mul x' w) = true.
Proof.
  intros Vx Vx' Vw Hx Hw Hn Hn'.
  destruct (SFleb_not_nan _ _ Hx) as [Nx Nx'].
  destruct (SFltb_zero_inv w Hw) as [->|(mw & ew & ->)].
  - destruct x as [[|]|[|]| |[|] m e], x' as [[|]|[|]| |[|] m' e'];
      try discriminate; try congruence;
      try (exfalso; apply Hn; reflexivity);
      try (exfalso; apply Hn'; reflexivity); reflexivity.
  - destruct (classify x') as [->| ->| ->|Fx']; try congruence.
    { apply SFleb_pinf, Hn. }
    { apply SFleb_ninf_inv in Hx. subst x. reflexivity. }
    destruct (classify x) as [->| ->| ->|Fx]; try congruence.
    { apply SFleb_pinf_inv in Hx. subst x'. discriminate. }
    { apply SFleb_ninf, Hn'. }
    set (w := S754_finite false mw ew) in *.
    destruct (SFmul_finite x w Vx Vw Fx eq_refl)
      as (V1 & N1 & E1).
    destruct (SFmul_finite x' w Vx' Vw Fx' eq_refl)
      as (V2 & N2 & E2).
    apply (SFleb_scaled); try assumption.
    rewrite E1, E2. apply round_scaled_mono; try assumption.
    + pose proof (emin_nonpos). lia.
    + apply (SFleb_scaled) in Hx; try assumption.
      apply (SFltb_scaled) in Hw;
        [|reflexivity|assumption|discriminate|discriminate].
      change (value (S754_zero false)) with 0 in Hw.
      apply Z.mul_le_mono_nonneg_r; lia.
Qed.

Lemma SFmul_nan_inv x w :
  x <> S754_nan -> w <> S754_nan -> valid x = true -> valid w = true ->
  mul x w = S754_nan ->
  (exists s s', x = S754_zero s /\ w = S754_infinity s')
  \/ (exists s s', x = S754_infinity s /\ w = S754_zero s').
Proof.
  intros Nx Nw Vx Vw H.
  destruct (is_finite x) eqn:Fx, (is_finite w) eqn:Fw.
  { destruct (SFmul_finite x w Vx Vw Fx Fw) as (_ & Hn & _).
    congruence. }
  all: destruct x as [sx|sx| |sx mx ex], w as [sw|sw| |sw mw ew];
    try discriminate; try congruence; eauto.
Qed.

Lemma below_refl x : valid x = true -> below_ x x.
Proof.
  intros V. split; [exact V|]. split; [exact V|].
  destruct (nan_dec x) as [->|N]; [left; left; reflexivity|right].
  apply (SFleb_scaled); try assumption. lia.
Qed.

Lemma SFadd_below a a' p p' :
  below_ a a' -> below_ p p' -> below_ (add a p) (add a' p').
Proof.
  intros (Va & Va' & Ha) (Vp & Vp' & Hp).
  split; [apply SFadd_valid; assumption|].
  split; [apply SFadd_valid; assumption|].
  destruct Ha as [Da|Ha]; [left; apply dead_add_l, Da|].
  destruct Hp as [Dp|Hp]; [left; apply dead_add_r, Dp|].
  destruct (nan_dec (add a p)) as [E|N]; [left; left; exact E|].
  destruct (nan_dec (add a' p')) as [E'|N'].
  - destruct (SFleb_not_nan _ _ Ha) as [_ Na'].
    destruct (SFleb_not_nan _ _ Hp) as [_ Np'].
    left.
    destruct (SFadd_nan_inv a' p' Va' Vp' Na' Np' E')
      as [[-> ->]|[-> ->]].
    + apply dead_add_r. right. apply SFleb_ninf_inv, Hp.
    + apply dead_add_l. right. apply SFleb_ninf_inv, Ha.
  - right. apply (SFadd_mono); assumption.
Qed.

Lemma SFmul_below x x' w :
  valid x = true -> valid x' = true -> valid w = true ->
  SFltb x x' = true -> SFltb (S754_zero false) w = true ->
  below_ (mul x w) (mul x' w).
Proof.
  intros Vx Vx' Vw Hx Hw.
  split; [apply SFmul_valid; assumption|].
  split; [apply SFmul_valid; assumption|].
  destruct (nan_dec (mul x w)) as [E|N]; [left; left; exact E|].
  destruct (nan_dec (mul x' w)) as [E'|N'].
  - destruct (SFltb_not_nan _ _ Hx) as [_ Nx'].
    destruct (SFltb_not_nan _ _ Hw) as [_ Nw].
    left.
    destruct (SFmul_nan_inv x' w Nx' Nw Vx' Vw E')
      as [(s & s' & -> & ->)|(s & s' & -> & ->)]; [|destruct s'; discriminate].
    destruct s'; [discriminate|].
    destruct x as [sx|[|]| |[|] mx ex], s; try discriminate; right; reflexivity.
  - right. apply SFmul_mono; try assumption. apply SFltb_leb, Hx.
Qed.

Lemma below_not_lt a a' : below_ a a' -> SFltb a' a = false.
Proof.
  intros (Va & Va' & [[->| ->]|H]).
  - destruct a'; reflexivity.
  - destruct a' as [s|[|]| |[|] m e]; reflexivity.
  - destruct (SFleb_not_nan _ _ H) as [N N'].
    apply (SFleb_scaled) in H; try assumption.
    destruct (SFltb a' a) eqn:E; [|reflexivity].
    apply (SFltb_scaled) in E; try assumption. lia.
Qed.

End Binary.

(** ** Single precision: increasing one input *)

(** 1 + 2^-24 lies half way between two floats and rounds to the even
    one, which is 1; in units of 2^-149 that is [2^149]. *)
Example round_tie_to_even :
  F32.add (F32.of_int 1) (S754_finite false 8388608 (-47)) = F32.of_int 1
  /\ scaled F32.prec F32.emax (F32.of_int 1) = 2 ^ 149
  /\ round_scaled F32.prec F32.emax (-149) (2 ^ 149 + 2 ^ 125) = 2 ^ 149.
Proof. split; [|split]; vm_compute; reflexivity. Qed.

(** The largest finite float plus itself overflows to infinity, which
    stands at [2^277]. *)
Example round_overflow :
  F32.add (S754_finite false 16777215 104) (S754_finite false 16777215 104)
  = S754_infinity false
  /\ round_scaled F32.prec F32.emax (-149) (2 * (16777215 * 2 ^ 253)) = 2 ^ 277.
Proof. split; vm_compute; reflexivity. Qed.

Lemma F32_prec_pos : 0 < F32.prec.
Proof. reflexivity. Qed.

Lemma F32_prec_emax : F32.prec < F32.emax.
Proof. reflexivity. Qed.

Lemma accumulate_below a a' xw xw' :
  below F32.prec F32.emax a a' ->
  below F32.prec F32.emax (F32.mul xw.1 xw.2) (F32.mul xw'.1 xw'.2) ->
  below F32.prec F32.emax (accumulate a xw) (accumulate a' xw').
Proof. apply (SFadd_below _ _ F32_prec_pos F32_prec_emax). Qed.

Lemma fold_accumulate_below (l l' : list (float32 * float32)) :
  Forall2 (fun xw xw' =>
             below F32.prec F32.emax (F32.mul xw.1 xw.2) (F32.mul xw'.1 xw'.2))
    l l' ->
  forall b b', below F32.prec F32.emax b b' ->
  below F32.prec F32.emax (fold_left accumulate l b) (fold_left accumulate l' b').
Proof.
  induction 1 as [|xw xw' l l' Hhd _ IH]; intros b b' Hb; simpl.
  - exact Hb.
  - apply IH, accumulate_below; assumption.
Qed.

Lemma zip_below_refl (xs : list float32) : forall ws : list float32,
  Forall F32.valid xs -> Forall F32.valid ws ->
  Forall2 (fun xw xw' =>
             below F32.prec F32.emax (F32.mul xw.1 xw.2) (F32.mul xw'.1 xw'.2))
    (zip xs ws) (zip xs ws).
Proof.
  induction xs as [|x xs IH]; intros [|w ws] Hxs Hws; simpl; try constructor.
  - apply (below_refl _ _ F32_prec_pos F32_prec_emax).
    apply (SFmul_valid _ _ F32_prec_pos F32_prec_emax).
    + exact (Forall_inv Hxs).
    + exact (Forall_inv Hws).
  - apply IH; [exact (Forall_inv_tail Hxs)|exact (Forall_inv_tail Hws)].
Qed.

(** Term by term, the products after the increase are not below those
    before it. *)
Lemma zip_below_insert (xs : list float32) : forall (ws : list float32) j x x' w,
  Forall F32.valid xs -> Forall F32.valid ws -> F32.valid x' ->
  xs !! j = Some x -> ws !! j = Some w ->
  F32.lt x x' = true -> F32.lt (S754_zero false) w = true ->
  Forall2 (fun xw xw' =>
             below F32.prec F32.emax (F32.mul xw.1 xw.2) (F32.mul xw'.1 xw'.2))
    (zip xs ws) (zip (<[j:=x']> xs) ws).
Proof.
  induction xs as [|x0 xs IH]; intros [|w0 ws] j x x' w Hxs Hws Hx' Hj Hjw Hlt Hw;
    try discriminate; try (destruct j; discriminate).
  pose proof (Forall_inv Hxs) as Hx0. pose proof (Forall_inv Hws) as Hw0.
  pose proof (Forall_inv_tail Hxs) as Hxs'. pose proof (Forall_inv_tail Hws) as Hws'.
  destruct j as [|j]; simpl in *; constructor.
  - injection Hj as ->. injection Hjw as ->.
    apply (SFmul_below _ _ F32_prec_pos F32_prec_emax); assumption.
  - apply zip_below_refl; assumption.
  - apply (below_refl _ _ F32_prec_pos F32_prec_emax).
    apply (SFmul_valid _ _ F32_prec_pos F32_prec_emax); assumption.
  - apply (IH ws j x x' w); assumption.
Qed.

Lemma weighted_sum_spec_below (xs ws : list float32) bias n j x x' w :
  Forall F32.valid xs -> Forall F32.valid ws -> F32.valid bias -> F32.valid x' ->
  xs !! j = Some x -> ws !! j = Some w ->
  F32.lt x x' = true -> F32.lt (S754_zero false) w = true ->
  below F32.prec F32.emax (weighted_sum_spec xs ws bias n)
    (weighted_sum_spec (<[j:=x']> xs) ws bias n).
Proof.
  intros Hxs Hws Hb Hx' Hj Hjw Hlt Hw. unfold weighted_sum_spec.
  rewrite <- !zip_with_take.
  apply fold_accumulate_below.
  - apply Forall2_take. apply (zip_below_insert xs ws j x x' w); assumption.
  - apply (below_refl _ _ F32_prec_pos F32_prec_emax). exact Hb.
Qed.

Lemma step_function_below a a' :
  below F32.prec F32.emax a a' -> step_function a = 1 -> step_function a' = 1.
Proof.
  intros (_ & _ & H). rewrite !step_function_cases.
  destruct H as [[->| ->]|H]; try discriminate.
  destruct a as [s|[|]| |[|] m e], a' as [s'|[|]| |[|] m' e'];
    try discriminate; reflexivity.
Qed.

(** ** The claims *)

(** C1: with both arrays at least [n] long, [perceptron] returns the step
    function of the value obtained by starting from the bias and adding
    input[i] * weight[i] for i = 0, ..., n-1 in ascending order, and leaves
    the state as it found it. *)
Theorem perceptron_weighted_sum s inputs weights (xs ws : list float32) bias n :
  heap s !! inputs = Some xs -> heap s !! weights = Some ws ->
  n <= Z.of_nat (length xs) -> n <= Z.of_nat (length ws) ->
  perceptron inputs weights bias n s =
  Done (step_function (weighted_sum_spec xs ws bias (Z.to_nat n))) s.
Proof.
  intros Hin Hw Hxs Hws. apply perceptron_of_sum.
  apply weighted_sum_run; assumption.
Qed.

Lemma perceptron_weighted_sum_witness :
  perceptron 0%nat 1%nat boundary_bias 2 boundary_state =
  Done (step_function
          (F32.add (F32.add boundary_bias
                      (F32.mul (F32.of_int 2) (F64.to_f32 (F64.decimal 5 1))))
             (F32.mul (F32.of_int 0) (F64.to_f32 (F64.neg (F64.decimal 5 1))))))
    boundary_state.
Proof.
  apply (perceptron_weighted_sum boundary_state 0%nat 1%nat
           [F32.of_int 2; F32.of_int 0]
           [F64.to_f32 (F64.decimal 5 1); F64.to_f32 (F64.neg (F64.decimal 5 1))]
           boundary_bias 2);
    [reflexivity | reflexivity | simpl; lia | simpl; lia].
Defined.

(** C2: the step function is defined on every value: it is 1 exactly when
    [0 <= x] holds and 0 otherwise, so both zeros map to 1; on inputs 2 and
    0, weights 0.5 and -0.5 and bias -1.0 the weighted sum is exactly +0.0
    and [perceptron] returns 1. *)
Theorem step_function_threshold :
  (forall x : float32,
      step_function x = if F32.le (S754_zero false) x then 1 else 0)
  /\ (forall x : float32, step_function x = 0 \/ step_function x = 1)
  /\ step_function (S754_zero false) = 1
  /\ step_function (S754_zero true) = 1
  /\ weighted_sum 0%nat 1%nat boundary_bias 2 boundary_state
     = Done (S754_zero false) boundary_state
  /\ perceptron 0%nat 1%nat boundary_bias 2 boundary_state
     = Done 1 boundary_state.
Proof.
  split; [|split; [exact step_function_binary|]].
  - intros x. rewrite step_function_cases.
    destruct x as [s|s| |s m e]; try destruct s; reflexivity.
  - split; [|split; [|split]]; vm_compute; auto.
Qed.

(** C3: with the count within both arrays every read of [perceptron] is in
    bounds and the call returns; with the count beyond the length of either
    array the call reads out of bounds. *)
Theorem perceptron_bounds s inputs weights (xs ws : list float32) bias n :
  heap s !! inputs = Some xs -> heap s !! weights = Some ws ->
  (n <= Z.of_nat (length xs) /\ n <= Z.of_nat (length ws) ->
   exists r, perceptron inputs weights bias n s = Done r s)
  /\ (Z.of_nat (length xs) < n \/ Z.of_nat (length ws) < n ->
      perceptron inputs weights bias n s = OutOfBounds).
Proof.
  intros Hin Hw. split.
  - intros [Hxs Hws]. eexists.
    apply perceptron_of_sum, (weighted_sum_run s inputs weights xs ws); assumption.
  - intros H. unfold perceptron, bind.
    rewrite (weighted_sum_overrun s inputs weights xs ws Hin Hw bias n H).
    reflexivity.
Qed.

Lemma perceptron_bounds_witness :
  (exists r, perceptron 0%nat 1%nat boundary_bias 2 boundary_state
             = Done r boundary_state)
  /\ perceptron 0%nat 1%nat boundary_bias 3 boundary_state = OutOfBounds.
Proof.
  split.
  - apply (perceptron_bounds boundary_state 0%nat 1%nat _ _ boundary_bias 2
             eq_refl eq_refl).
    simpl. lia.
  - apply (perceptron_bounds boundary_state 0%nat 1%nat _ _ boundary_bias 3
             eq_refl eq_refl).
    simpl. lia.
Defined.

(** C4: with both arrays of length [n], [perceptron] returns 0 or 1 and
    nothing else. *)
Theorem perceptron_binary s inputs weights (xs ws : list float32) bias n :
  heap s !! inputs = Some xs -> heap s !! weights = Some ws ->
  Z.of_nat (length xs) = n -> Z.of_nat (length ws) = n ->
  exists r, perceptron inputs weights bias n s = Done r s /\ (r = 0 \/ r = 1).
Proof.
  intros Hin Hw Hxs Hws. eexists. split.
  - apply perceptron_of_sum, (weighted_sum_run s inputs weights xs ws);
      first [assumption | lia].
  - apply step_function_binary.
Qed.

Lemma perceptron_binary_witness :
  exists r, perceptron 0%nat 1%nat boundary_bias 2 boundary_state
            = Done r boundary_state /\ (r = 0 \/ r = 1).
Proof.
  apply (perceptron_binary boundary_state 0%nat 1%nat _ _ boundary_bias 2
           eq_refl eq_refl); reflexivity.
Defined.

(** C5: with count 0 the sum is the bias itself and the result is the step
    function of the bias, whatever the two arrays are; bias 0.1 gives 1 and
    bias -0.1 gives 0. *)
Theorem perceptron_zero_count inputs weights bias s :
  weighted_sum inputs weights bias 0 s = Done bias s
  /\ perceptron inputs weights bias 0 s = Done (step_function bias) s
  /\ perceptron inputs weights (F64.to_f32 (F64.decimal 1 1)) 0 s = Done 1 s
  /\ perceptron inputs weights (F64.to_f32 (F64.neg (F64.decimal 1 1))) 0 s
     = Done 0 s.
Proof.
  assert (H : forall b, perceptron inputs weights b 0 s = Done (step_function b) s).
  { intros b. apply perceptron_of_sum, weighted_sum_no_iteration. lia. }
  split; [|split; [|split]].
  - apply weighted_sum_no_iteration. lia.
  - apply H.
  - rewrite H. reflexivity.
  - rewrite H. reflexivity.
Qed.

(** C6: take two calls with the same weights, bias and count whose inputs
    differ in one place, where the second input is larger and the weight at
    that place is positive.  Both calls return, the weighted sum of the
    second is not less than that of the first, and when the first call
    returns 1 so does the second.  The values are single precision floats,
    infinities and NaNs included. *)
Theorem perceptron_monotone s1 s2 inputs weights (xs ws : list float32)
    bias n j x x' w :
  heap s1 !! inputs = Some xs -> heap s1 !! weights = Some ws ->
  heap s2 !! inputs = Some (<[j:=x']> xs) -> heap s2 !! weights = Some ws ->
  Forall F32.valid xs -> Forall F32.valid ws -> F32.valid bias -> F32.valid x' ->
  xs !! j = Some x -> ws !! j = Some w ->
  F32.lt x x' = true -> F32.lt (S754_zero false) w = true ->
  n <= Z.of_nat (length xs) -> n <= Z.of_nat (length ws) ->
  exists sum1 sum2,
    weighted_sum inputs weights bias n s1 = Done sum1 s1
    /\ weighted_sum inputs weights bias n s2 = Done sum2 s2
    /\ F32.lt sum2 sum1 = false
    /\ (perceptron inputs weights bias n s1 = Done 1 s1 ->
        perceptron inputs weights bias n s2 = Done 1 s2).
Proof.
  intros Hin1 Hw1 Hin2 Hw2 Hxs Hws Hb Hx' Hj Hjw Hlt Hw Hnx Hnw.
  pose proof (weighted_sum_run s1 inputs weights xs ws Hin1 Hw1 bias n Hnx Hnw)
    as Hrun1.
  pose proof (weighted_sum_run s2 inputs weights (<[j:=x']> xs) ws Hin2 Hw2 bias n)
    as Hrun2.
  rewrite length_insert in Hrun2. specialize (Hrun2 Hnx Hnw).
  pose proof (weighted_sum_spec_below xs ws bias (Z.to_nat n) j x x' w
                Hxs Hws Hb Hx' Hj Hjw Hlt Hw) as Hbelow.
  eexists. eexists. split; [exact Hrun1|]. split; [exact Hrun2|]. split.
  - exact (below_not_lt _ _ F32_prec_pos F32_prec_emax _ _ Hbelow).
  - intros H1. rewrite (perceptron_of_sum _ _ _ _ _ _ _ Hrun1) in H1.
    rewrite (perceptron_of_sum _ _ _ _ _ _ _ Hrun2).
    injection H1 as H1. rewrite (step_function_below _ _ Hbelow H1). reflexivity.
Qed.

Lemma perceptron_monotone_witness :
  exists sum1 sum2,
    weighted_sum 0%nat 1%nat (S754_zero false) 2 before_state = Done sum1 before_state
    /\ weighted_sum 0%nat 1%nat (S754_zero false) 2 after_state = Done sum2 after_state
    /\ F32.lt sum2 sum1 = false
    /\ (perceptron 0%nat 1%nat (S754_zero false) 2 before_state = Done 1 before_state ->
        perceptron 0%nat 1%nat (S754_zero false) 2 after_state = Done 1 after_state).
Proof.
  apply (perceptron_monotone before_state after_state 0%nat 1%nat
           [F32.of_int 1; F32.of_int 1]
           [F64.to_f32 (F64.decimal 5 1); F64.to_f32 (F64.neg (F64.decimal 5 1))]
           (S754_zero false) 2 0%nat (F32.of_int 1) (F32.of_int 2)
           (F64.to_f32 (F64.decimal 5 1)));
    try reflexivity; try (simpl; lia);
    repeat (constructor; try reflexivity).
Defined.

(** C7: no value is rejected; when the accumulated sum is a NaN the
    comparison with 0 is false and [perceptron] returns 0. *)
Theorem perceptron_nan_sum inputs weights bias n s s' :
  weighted_sum inputs weights bias n s = Done S754_nan s' ->
  perceptron inputs weights bias n s = Done 0 s'.
Proof. intros H. rewrite (perceptron_of_sum _ _ _ _ _ _ _ H). reflexivity. Qed.

Lemma perceptron_nan_sum_witness :
  weighted_sum 0%nat 1%nat (F32.of_int 1) 1 nan_state = Done S754_nan nan_state
  /\ perceptron 0%nat 1%nat (F32.of_int 1) 1 nan_state = Done 0 nan_state.
Proof.
  split; [reflexivity|].
  apply (perceptron_nan_sum 0%nat 1%nat (F32.of_int 1) 1 nan_state nan_state).
  reflexivity.
Defined.

(** C8: [main] evaluates the perceptron on inputs 0 and 1, weights 0.5 and
    -0.5, bias 0.1 and count 2; the weighted sum is the [float] -0.4 and the
    result is 0; it writes the one line [Perceptron Output: 0] to standard
    output and returns 0. *)
Theorem main_output :
  weighted_sum 0%nat 1%nat (F64.to_f32 (F64.decimal 1 1)) 2 driver_state
  = Done (F64.to_f32 (F64.neg (F64.decimal 4 1))) driver_state
  /\ perceptron 0%nat 1%nat (F64.to_f32 (F64.decimal 1 1)) 2 driver_state
     = Done 0 driver_state
  /\ main initial_state
     = Done 0 (mkState (heap driver_state)
                 ("Perceptron Output: 0" ++ newline)).
Proof. split; [|split]; vm_compute; reflexivity. Qed.

(** C9: [perceptron] has no effect: a call that returns leaves the arrays,
    every other block and standard output as they were, and a second call
    with the same arguments returns the same result. *)
Theorem perceptron_pure inputs weights bias n s r s' :
  perceptron inputs weights bias n s = Done r s' ->
  s' = s
  /\ (let* r1 := perceptron inputs weights bias n in
      let* r2 := perceptron inputs weights bias n in
      ret (r1, r2)) s = Done (r, r) s.
Proof.
  intros H.
  assert (s' = s) as ->.
  { apply perceptron_inv in H. destruct H as (sum & H & _).
    exact (weighted_sum_frame _ _ _ _ _ _ _ H). }
  split; [reflexivity|].
  rewrite (bind_done _ _ _ _ _ H), (bind_done _ _ _ _ _ H). reflexivity.
Qed.

Lemma perceptron_pure_witness :
  driver_state = driver_state
  /\ (let* r1 := perceptron 0%nat 1%nat (F64.to_f32 (F64.decimal 1 1)) 2 in
      let* r2 := perceptron 0%nat 1%nat (F64.to_f32 (F64.decimal 1 1)) 2 in
      ret (r1, r2)) driver_state = Done (0, 0) driver_state.
Proof.
  apply (perceptron_pure 0%nat 1%nat (F64.to_f32 (F64.decimal 1 1)) 2
           driver_state 0 driver_state).
  reflexivity.
Defined.

(** C10: with a negative count the loop runs no iteration and the result is
    the step function of the bias, as for count 0, whatever the two arrays
    are. *)
Theorem perceptron_negative_count inputs weights bias n s :
  n < 0 ->
  weighted_sum inputs weights bias n s = Done bias s
  /\ perceptron inputs weights bias n s = Done (step_function bias) s
  /\ perceptron inputs weights bias n s = perceptron inputs weights bias 0 s.
Proof.
  intros Hn.
  assert (H : forall k, k <= 0 ->
            perceptron inputs weights bias k s = Done (step_function bias) s).
  { intros k Hk. apply perceptron_of_sum, weighted_sum_no_iteration. exact Hk. }
  split; [|split].
  - apply weighted_sum_no_iteration. lia.
  - apply H. lia.
  - rewrite !H by lia. reflexivity.
Qed.

Lemma perceptron_negative_count_witness :
  weighted_sum 5%nat 7%nat (F32.of_int 3) (-1) initial_state
  = Done (F32.of_int 3) initial_state
  /\ perceptron 5%nat 7%nat (F32.of_int 3) (-1) initial_state
     = Done (step_function (F32.of_int 3)) initial_state
  /\ perceptron 5%nat 7%nat (F32.of_int 3) (-1) initial_state
     = perceptron 5%nat 7%nat (F32.of_int 3) 0 initial_state.
Proof.
  apply (perceptron_negative_count 5%nat 7%nat (F32.of_int 3) (-1) initial_state).
  lia.
Defined.

(** ** Further properties of [perceptron] and [step_function] *)

(** *** Negative weights *)

Section Negative.
Variables prec emax : Z.
Hypothesis Hprec : 0 < prec.
Hypothesis Hemax : prec < emax.

Local Abbreviation value := (scaled prec emax).
Local Abbreviation valid := (valid_binary prec emax).
Local Abbreviation mul := (SFmul prec emax).

(** A float below zero is minus infinity or finite with a negative sign. *)
Lemma SFltb_neg_inv w :
  SFltb w (S754_zero false) = true ->
  w = S754_infinity true \/ exists m e, w = S754_finite true m e.
Proof.
  destruct w as [s|[|]| |[|] m e]; try discriminate; eauto.
Qed.

(** A product with a negative factor reverses the order. *)
Lemma SFmul_anti x x' w :
  valid x = true -> valid x' = true -> valid w = true ->
  SFleb x x' = true -> SFltb w (S754_zero false) = true ->
  mul x w <> S754_nan -> mul x' w <> S754_nan ->
  SFleb (mul x' w) (mul x w) = true.
Proof.
  intros Vx Vx' Vw Hx Hw Hn Hn'.
  destruct (SFleb_not_nan _ _ Hx) as [Nx Nx'].
  destruct (SFltb_neg_inv w Hw) as [->|(mw & ew & ->)].
  - destruct x as [[|]|[|]| |[|] m e], x' as [[|]|[|]| |[|] m' e'];
      try discriminate; try congruence;
      try (exfalso; apply Hn; reflexivity);
      try (exfalso; apply Hn'; reflexivity); reflexivity.
  - destruct (classify x') as [->| ->| ->|Fx']; try congruence.
    { apply SFleb_ninf, Hn. }
    { apply SFleb_ninf_inv in Hx. subst x. reflexivity. }
    destruct (classify x) as [->| ->| ->|Fx]; try congruence.
    { apply SFleb_pinf_inv in Hx. subst x'. discriminate. }
    { apply SFleb_pinf, Hn'. }
    set (w := S754_finite true mw ew) in *.
    destruct (SFmul_finite prec emax Hprec Hemax x w Vx Vw Fx eq_refl)
      as (V1 & N1 & E1).
    destruct (SFmul_finite prec emax Hprec Hemax x' w Vx' Vw Fx' eq_refl)
      as (V2 & N2 & E2).
    apply (SFleb_scaled prec emax Hprec Hemax); try assumption.
    rewrite E1, E2. apply round_scaled_mono; try assumption.
    + pose proof (emin_nonpos prec emax Hprec Hemax). lia.
    + apply (SFleb_scaled prec emax Hprec Hemax) in Hx; try assumption.
      apply (SFltb_scaled prec emax Hprec Hemax) in Hw;
        [|assumption|reflexivity|discriminate|discriminate].
      change (value (S754_zero false)) with 0 in Hw.
      apply Z.mul_le_mono_nonpos_r; lia.
Qed.

Lemma SFmul_below_neg x x' w :
  valid x = true -> valid x' = true -> valid w = true ->
  SFltb x x' = true -> SFltb w (S754_zero false) = true ->
  below prec emax (mul x' w) (mul x w).
Proof.
  intros Vx Vx' Vw Hx Hw.
  split; [apply SFmul_valid; assumption|].
  split; [apply SFmul_valid; assumption|].
  destruct (nan_dec (mul x' w)) as [E'|N']; [left; left; exact E'|].
  destruct (nan_dec (mul x w)) as [E|N].
  - destruct (SFltb_not_nan _ _ Hx) as [Nx _].
    destruct (SFltb_not_nan _ _ Hw) as [Nw _].
    left.
    destruct (SFmul_nan_inv prec emax Hprec Hemax x w Nx Nw Vx Vw E)
      as [(s & s' & -> & ->)|(s & s' & -> & ->)]; [|destruct s'; discriminate].
    destruct s'; [|discriminate].
    destruct x' as [sx|[|]| |[|] mx ex], s; try discriminate; right; reflexivity.
  - right. apply SFmul_anti; try assumption. apply SFltb_leb, Hx.
Qed.

(** *** Values that are not negative *)

Lemma SFmul_nonneg x w :
  valid x = true -> valid w = true -> is_finite x = true -> is_finite w = true ->
  SFleb (S754_zero false) x = true -> SFleb (S754_zero false) w = true ->
  SFleb (S754_zero false) (mul x w) = true.
Proof.
  intros Vx Vw Fx Fw Hx Hw.
  destruct (SFleb_not_nan _ _ Hx) as [_ Nx].
  destruct (SFleb_not_nan _ _ Hw) as [_ Nw].
  destruct (SFmul_finite prec emax Hprec Hemax x w Vx Vw Fx Fw) as (V & N & E).
  apply (SFleb_scaled prec emax Hprec Hemax) in Hx, Hw;
    try assumption; try reflexivity; try discriminate.
  apply (SFleb_scaled prec emax Hprec Hemax);
    try assumption; try reflexivity; try discriminate.
  rewrite E. change (value (S754_zero false)) with 0 in *.
  change 0 with (round_scaled prec emax (2 * emin prec emax) 0) at 1.
  apply round_scaled_mono; try assumption.
  - pose proof (emin_nonpos prec emax Hprec Hemax). lia.
  - apply Z.mul_nonneg_nonneg; assumption.
Qed.

Lemma SFadd_nonneg a p :
  valid a = true -> valid p = true ->
  SFleb (S754_zero false) a = true -> SFleb (S754_zero false) p = true ->
  SFleb (S754_zero false) (SFadd prec emax a p) = true.
Proof.
  intros Va Vp Ha Hp.
  destruct (SFleb_not_nan _ _ Ha) as [_ Na].
  destruct (SFleb_not_nan _ _ Hp) as [_ Np].
  change (S754_zero false)
    with (SFadd prec emax (S754_zero false) (S754_zero false)) at 1.
  apply (SFadd_mono prec emax Hprec Hemax); try assumption; try reflexivity.
  - discriminate.
  - intros E.
    destruct (SFadd_nan_inv prec emax Hprec Hemax a p Va Vp Na Np E)
      as [[-> ->]|[-> ->]]; discriminate.
Qed.

End Negative.

(** *** Sums of single precision floats *)

Lemma Forall_zip {A B} (P : A -> Prop) (Q : B -> Prop) (l : list A) :
  forall k : list B, Forall P l -> Forall Q k ->
  Forall (fun xy => P xy.1 /\ Q xy.2) (zip l k).
Proof.
  induction l as [|x l IH]; intros [|y k] Hl Hk; simpl; constructor.
  - split; [exact (Forall_inv Hl)|exact (Forall_inv Hk)].
  - apply IH; [exact (Forall_inv_tail Hl)|exact (Forall_inv_tail Hk)].
Qed.

Lemma step_function_le x :
  step_function x = 1 <-> F32.le (S754_zero false) x = true.
Proof.
  rewrite step_function_cases.
  destruct x as [s|[|]| |[|] m e]; split; intros H;
    try reflexivity; try discriminate.
Qed.

Lemma step_add_zero acc s :
  step_function (F32.add acc (S754_zero s)) = step_function acc.
Proof.
  rewrite !step_function_cases.
  destruct acc as [[|]|[|]| |[|] m e], s; reflexivity.
Qed.

Lemma mul_zero_finite x w :
  (is_zero x = true /\ is_finite w = true)
  \/ (is_finite x = true /\ is_zero w = true) ->
  exists s, F32.mul x w = S754_zero s.
Proof.
  intros [[Hx Hw]|[Hx Hw]];
    destruct x as [sx|sx| |sx mx ex]; try discriminate;
    destruct w as [sw|sw| |sw mw ew]; try discriminate; eexists; reflexivity.
Qed.

Lemma fold_zero_products (l : list (float32 * float32)) : forall acc,
  Forall (fun xw : float32 * float32 =>
            exists s, F32.mul xw.1 xw.2 = S754_zero s) l ->
  step_function (fold_left accumulate l acc) = step_function acc.
Proof.
  induction l as [|xw l IH]; intros acc Hl; [reflexivity|]. cbn [fold_left].
  rewrite IH by exact (Forall_inv_tail Hl).
  destruct (Forall_inv Hl) as [s Hs]. unfold accumulate. rewrite Hs.
  apply step_add_zero.
Qed.

Lemma add_nan_r acc : F32.add acc S754_nan = S754_nan.
Proof. destruct acc; reflexivity. Qed.

Lemma fold_from_nan (l : list (float32 * float32)) :
  fold_left accumulate l S754_nan = S754_nan.
Proof. induction l as [|xw l IH]; [reflexivity|exact IH]. Qed.

Lemma weighted_sum_spec_nan (xs ws : list float32) bias n j x w :
  (j < n)%nat -> xs !! j = Some x -> ws !! j = Some w ->
  F32.mul x w = S754_nan ->
  weighted_sum_spec xs ws bias n = S754_nan.
Proof.
  intros Hj Hx Hw Hnan. unfold weighted_sum_spec.
  assert (Hl : zip (take n xs) (take n ws) !! j = Some (x, w)).
  { apply lookup_zip_with_Some. exists x, w. split; [reflexivity|].
    split; apply lookup_take_Some; split; assumption. }
  rewrite <- (take_drop_middle _ _ _ Hl), fold_left_app. cbn [fold_left].
  unfold accumulate at 2. cbn [fst snd]. rewrite Hnan, add_nan_r. apply fold_from_nan.
Qed.

Lemma fold_accumulate_valid (l : list (float32 * float32)) : forall acc,
  Forall (fun xw => F32.valid xw.1 /\ F32.valid xw.2) l -> F32.valid acc ->
  F32.valid (fold_left accumulate l acc).
Proof.
  induction l as [|xw l IH]; intros acc Hl Hacc; [exact Hacc|]. cbn [fold_left].
  apply IH; [exact (Forall_inv_tail Hl)|].
  destruct (Forall_inv Hl) as [Hx Hw].
  apply (SFadd_valid _ _ F32_prec_pos F32_prec_emax); [exact Hacc|].
  apply (SFmul_valid _ _ F32_prec_pos F32_prec_emax); assumption.
Qed.

Lemma fold_accumulate_nonneg (l : list (float32 * float32)) : forall acc,
  Forall (fun xw =>
            (F32.valid xw.1 /\ is_finite xw.1 = true
             /\ F32.le (S754_zero false) xw.1 = true)
            /\ (F32.valid xw.2 /\ is_finite xw.2 = true
                /\ F32.le (S754_zero false) xw.2 = true)) l ->
  F32.valid acc -> F32.le (S754_zero false) acc = true ->
  F32.le (S754_zero false) (fold_left accumulate l acc) = true.
Proof.
  induction l as [|xw l IH]; intros acc Hl Vacc Hacc; [exact Hacc|]. cbn [fold_left].
  destruct (Forall_inv Hl) as [(Vx & Fx & Hx) (Vw & Fw & Hw)].
  pose proof (SFmul_valid _ _ F32_prec_pos F32_prec_emax _ _ Vx Vw) as Vp.
  apply IH; [exact (Forall_inv_tail Hl)| |].
  - apply (SFadd_valid _ _ F32_prec_pos F32_prec_emax); assumption.
  - apply (SFadd_nonneg _ _ F32_prec_pos F32_prec_emax); try assumption.
    apply (SFmul_nonneg _ _ F32_prec_pos F32_prec_emax); assumption.
Qed.

Lemma zip_below_insert_neg (xs : list float32) :
  forall (ws : list float32) j x x' w,
  Forall F32.valid xs -> Forall F32.valid ws -> F32.valid x' ->
  xs !! j = Some x -> ws !! j = Some w ->
  F32.lt x x' = true -> F32.lt w (S754_zero false) = true ->
  Forall2 (fun xw xw' =>
             below F32.prec F32.emax (F32.mul xw.1 xw.2) (F32.mul xw'.1 xw'.2))
    (zip (<[j:=x']> xs) ws) (zip xs ws).
Proof.
  induction xs as [|x0 xs IH]; intros [|w0 ws] j x x' w Hxs Hws Hx' Hj Hjw Hlt Hw;
    try discriminate; try (destruct j; discriminate).
  pose proof (Forall_inv Hxs) as Hx0. pose proof (Forall_inv Hws) as Hw0.
  pose proof (Forall_inv_tail Hxs) as Hxs'. pose proof (Forall_inv_tail Hws) as Hws'.
  destruct j as [|j]; simpl in *; constructor.
  - injection Hj as ->. injection Hjw as ->.
    apply (SFmul_below_neg _ _ F32_prec_pos F32_prec_emax); assumption.
  - apply zip_below_refl; assumption.
  - apply (below_refl _ _ F32_prec_pos F32_prec_emax).
    apply (SFmul_valid _ _ F32_prec_pos F32_prec_emax); assumption.
  - apply (IH ws j x x' w); assumption.
Qed.

(** *** The properties *)

(** X1: whatever the arguments and the state are, also with arrays that
    are missing or too short, a call of [perceptron] either returns 0 or 1
    and leaves the state as it was, or it reads out of bounds; it never runs
    on. *)
Theorem perceptron_outcome inputs weights bias n s :
  (exists r, perceptron inputs weights bias n s = Done r s /\ (r = 0 \/ r = 1))
  \/ perceptron inputs weights bias n s = OutOfBounds.
Proof.
  destruct (perceptron inputs weights bias n s) as [r s'| |] eqn:E.
  - left. destruct (perceptron_inv _ _ _ _ _ _ _ E) as (sum & Hsum & ->).
    rewrite (weighted_sum_frame _ _ _ _ _ _ _ Hsum).
    eexists. split; [reflexivity|]. apply step_function_binary.
  - right. reflexivity.
  - destruct (perceptron_fuel _ _ _ _ _ E).
Qed.

(** X2: [perceptron] reads only the first [n] elements of its arrays: two
    calls whose arrays agree there return the same result, whatever
    follows in the arrays. *)
Theorem perceptron_reads_prefix s1 s2 inputs1 weights1 inputs2 weights2
    (xs1 ws1 xs2 ws2 : list float32) bias n :
  heap s1 !! inputs1 = Some xs1 -> heap s1 !! weights1 = Some ws1 ->
  heap s2 !! inputs2 = Some xs2 -> heap s2 !! weights2 = Some ws2 ->
  n <= Z.of_nat (length xs1) -> n <= Z.of_nat (length ws1) ->
  n <= Z.of_nat (length xs2) -> n <= Z.of_nat (length ws2) ->
  take (Z.to_nat n) xs1 = take (Z.to_nat n) xs2 ->
  take (Z.to_nat n) ws1 = take (Z.to_nat n) ws2 ->
  exists r, perceptron inputs1 weights1 bias n s1 = Done r s1
            /\ perceptron inputs2 weights2 bias n s2 = Done r s2.
Proof.
  intros Hx1 Hw1 Hx2 Hw2 Lx1 Lw1 Lx2 Lw2 Ex Ew.
  eexists. split.
  - apply perceptron_of_sum, (weighted_sum_run s1 _ _ xs1 ws1); assumption.
  - unfold weighted_sum_spec. rewrite Ex, Ew.
    apply perceptron_of_sum, (weighted_sum_run s2 _ _ xs2 ws2); assumption.
Qed.

Lemma perceptron_reads_prefix_witness :
  exists r, perceptron 0%nat 1%nat (S754_zero false) 1 before_state
            = Done r before_state
            /\ perceptron 0%nat 1%nat (S754_zero false) 1 raised_state
               = Done r raised_state.
Proof.
  apply (perceptron_reads_prefix before_state raised_state 0%nat 1%nat 0%nat 1%nat
           _ _ _ _ (S754_zero false) 1 eq_refl eq_refl eq_refl eq_refl);
    try reflexivity; simpl; lia.
Defined.

(** X3: one more element adds one more term: the sum for count [n + 1] is
    the sum for count [n] plus input[n] * weight[n], rounded in this
    order. *)
Theorem weighted_sum_succ s inputs weights (xs ws : list float32) bias n x w :
  heap s !! inputs = Some xs -> heap s !! weights = Some ws ->
  0 <= n -> xs !! Z.to_nat n = Some x -> ws !! Z.to_nat n = Some w ->
  exists sum,
    weighted_sum inputs weights bias n s = Done sum s
    /\ weighted_sum inputs weights bias (n + 1) s
       = Done (F32.add sum (F32.mul x w)) s.
Proof.
  intros Hin Hw Hn Hx Hwn.
  assert (Lx : (Z.to_nat n < length xs)%nat) by exact (lookup_lt_Some _ _ _ Hx).
  assert (Lw : (Z.to_nat n < length ws)%nat) by exact (lookup_lt_Some _ _ _ Hwn).
  eexists. split.
  - apply (weighted_sum_run s _ _ xs ws); first [assumption | lia].
  - rewrite (weighted_sum_run s _ _ xs ws Hin Hw) by lia.
    f_equal. unfold weighted_sum_spec.
    replace (Z.to_nat (n + 1)) with (S (Z.to_nat n)) by lia.
    rewrite (@take_S_r float32 xs (Z.to_nat n) x Hx),
      (@take_S_r float32 ws (Z.to_nat n) w Hwn).
    rewrite zip_with_app by (rewrite !length_take_le by lia; reflexivity).
    rewrite fold_left_app. reflexivity.
Qed.

Lemma weighted_sum_succ_witness :
  exists sum,
    weighted_sum 0%nat 1%nat (F64.to_f32 (F64.decimal 1 1)) 1 driver_state
    = Done sum driver_state
    /\ weighted_sum 0%nat 1%nat (F64.to_f32 (F64.decimal 1 1)) (1 + 1) driver_state
       = Done (F32.add sum (F32.mul (F32.of_int 1)
                              (F64.to_f32 (F64.neg (F64.decimal 5 1)))))
           driver_state.
Proof.
  apply (weighted_sum_succ driver_state 0%nat 1%nat _ _
           (F64.to_f32 (F64.decimal 1 1)) 1 _ _ eq_refl eq_refl);
    [lia | reflexivity | reflexivity].
Defined.

(** X4: on inputs that are all zero, with finite weights, the result is
    the step function of the bias. *)
Theorem perceptron_zero_inputs s inputs weights (xs ws : list float32) bias n :
  heap s !! inputs = Some xs -> heap s !! weights = Some ws ->
  n <= Z.of_nat (length xs) -> n <= Z.of_nat (length ws) ->
  Forall (fun x => is_zero x = true) xs ->
  Forall (fun w => is_finite w = true) ws ->
  perceptron inputs weights bias n s = Done (step_function bias) s.
Proof.
  intros Hin Hw Lx Lw Hxs Hws.
  rewrite (perceptron_of_sum _ _ _ _ _ _ _
             (weighted_sum_run s _ _ xs ws Hin Hw bias n Lx Lw)).
  f_equal. apply fold_zero_products.
  eapply Forall_impl.
  - apply Forall_zip; apply Forall_take; [exact Hxs|exact Hws].
  - intros xw [Hx Hw']. apply mul_zero_finite. left. split; assumption.
Qed.

Lemma perceptron_zero_inputs_witness :
  perceptron 0%nat 1%nat (F64.to_f32 (F64.neg (F64.decimal 1 1))) 2 zero_state
  = Done (step_function (F64.to_f32 (F64.neg (F64.decimal 1 1)))) zero_state.
Proof.
  apply (perceptron_zero_inputs zero_state 0%nat 1%nat _ _
           (F64.to_f32 (F64.neg (F64.decimal 1 1))) 2 eq_refl eq_refl);
    try (simpl; lia); repeat (constructor; try reflexivity).
Defined.

(** X5: with weights that are all zero, on finite inputs, the result is
    the step function of the bias. *)
Theorem perceptron_zero_weights s inputs weights (xs ws : list float32) bias n :
  heap s !! inputs = Some xs -> heap s !! weights = Some ws ->
  n <= Z.of_nat (length xs) -> n <= Z.of_nat (length ws) ->
  Forall (fun x => is_finite x = true) xs ->
  Forall (fun w => is_zero w = true) ws ->
  perceptron inputs weights bias n s = Done (step_function bias) s.
Proof.
  intros Hin Hw Lx Lw Hxs Hws.
  rewrite (perceptron_of_sum _ _ _ _ _ _ _
             (weighted_sum_run s _ _ xs ws Hin Hw bias n Lx Lw)).
  f_equal. apply fold_zero_products.
  eapply Forall_impl.
  - apply Forall_zip; apply Forall_take; [exact Hxs|exact Hws].
  - intros xw [Hx Hw']. apply mul_zero_finite. right. split; assumption.
Qed.

Lemma perceptron_zero_weights_witness :
  perceptron 1%nat 0%nat (F32.of_int 3) 2 zero_state
  = Done (step_function (F32.of_int 3)) zero_state.
Proof.
  apply (perceptron_zero_weights zero_state 1%nat 0%nat _ _
           (F32.of_int 3) 2 eq_refl eq_refl);
    try (simpl; lia); repeat (constructor; try reflexivity).
Defined.

(** X6: when one of the first [n] products input[j] * weight[j] is a NaN
    (a NaN operand, or zero times infinity), the sum is a NaN and the
    result is 0, whatever the other elements and the bias are. *)
Theorem perceptron_nan_product s inputs weights (xs ws : list float32)
    bias n j x w :
  heap s !! inputs = Some xs -> heap s !! weights = Some ws ->
  n <= Z.of_nat (length xs) -> n <= Z.of_nat (length ws) ->
  Z.of_nat j < n -> xs !! j = Some x -> ws !! j = Some w ->
  F32.mul x w = S754_nan ->
  weighted_sum inputs weights bias n s = Done S754_nan s
  /\ perceptron inputs weights bias n s = Done 0 s.
Proof.
  intros Hin Hw Lx Lw Hj Hx Hwj Hnan.
  assert (Hsum : weighted_sum inputs weights bias n s = Done S754_nan s).
  { rewrite (weighted_sum_run s _ _ xs ws Hin Hw bias n Lx Lw). f_equal.
    apply (weighted_sum_spec_nan xs ws bias (Z.to_nat n) j x w);
      first [assumption | lia]. }
  split; [exact Hsum|].
  rewrite (perceptron_of_sum _ _ _ _ _ _ _ Hsum). reflexivity.
Qed.

Lemma perceptron_nan_product_witness :
  weighted_sum 0%nat 1%nat (F32.of_int 1) 1 nan_state = Done S754_nan nan_state
  /\ perceptron 0%nat 1%nat (F32.of_int 1) 1 nan_state = Done 0 nan_state.
Proof.
  apply (perceptron_nan_product nan_state 0%nat 1%nat _ _ (F32.of_int 1) 1 0%nat
           (S754_infinity false) (S754_zero false) eq_refl eq_refl);
    try reflexivity; simpl; lia.
Defined.

(** X7: a larger bias never makes the sum smaller and never turns a
    result 1 into 0. *)
Theorem perceptron_bias_monotone s inputs weights (xs ws : list float32)
    bias bias' n :
  heap s !! inputs = Some xs -> heap s !! weights = Some ws ->
  Forall F32.valid xs -> Forall F32.valid ws ->
  F32.valid bias -> F32.valid bias' -> F32.le bias bias' = true ->
  n <= Z.of_nat (length xs) -> n <= Z.of_nat (length ws) ->
  exists sum sum',
    weighted_sum inputs weights bias n s = Done sum s
    /\ weighted_sum inputs weights bias' n s = Done sum' s
    /\ F32.lt sum' sum = false
    /\ (perceptron inputs weights bias n s = Done 1 s ->
        perceptron inputs weights bias' n s = Done 1 s).
Proof.
  intros Hin Hw Hxs Hws Vb Vb' Hle Lx Lw.
  pose proof (weighted_sum_run s _ _ xs ws Hin Hw bias n Lx Lw) as Hrun.
  pose proof (weighted_sum_run s _ _ xs ws Hin Hw bias' n Lx Lw) as Hrun'.
  assert (Hbelow : below F32.prec F32.emax
                     (weighted_sum_spec xs ws bias (Z.to_nat n))
                     (weighted_sum_spec xs ws bias' (Z.to_nat n))).
  { unfold weighted_sum_spec. rewrite <- !zip_with_take.
    apply fold_accumulate_below.
    - apply Forall2_take, zip_below_refl; assumption.
    - split; [exact Vb|]. split; [exact Vb'|]. right. exact Hle. }
  eexists. eexists. split; [exact Hrun|]. split; [exact Hrun'|]. split.
  - exact (below_not_lt _ _ F32_prec_pos F32_prec_emax _ _ Hbelow).
  - intros H1. rewrite (perceptron_of_sum _ _ _ _ _ _ _ Hrun) in H1.
    rewrite (perceptron_of_sum _ _ _ _ _ _ _ Hrun').
    injection H1 as H1. rewrite (step_function_below _ _ Hbelow H1). reflexivity.
Qed.

Lemma perceptron_bias_monotone_witness :
  exists sum sum',
    weighted_sum 0%nat 1%nat (F32.of_int (-1)) 2 before_state = Done sum before_state
    /\ weighted_sum 0%nat 1%nat (F32.of_int 1) 2 before_state = Done sum' before_state
    /\ F32.lt sum' sum = false
    /\ (perceptron 0%nat 1%nat (F32.of_int (-1)) 2 before_state = Done 1 before_state ->
        perceptron 0%nat 1%nat (F32.of_int 1) 2 before_state = Done 1 before_state).
Proof.
  apply (perceptron_bias_monotone before_state 0%nat 1%nat _ _
           (F32.of_int (-1)) (F32.of_int 1) 2 eq_refl eq_refl);
    try reflexivity; try (simpl; lia);
    repeat (constructor; try reflexivity).
Defined.

(** X8: with a bias, inputs and weights that are finite and not negative
    the result is 1, also when the sum overflows. *)
Theorem perceptron_nonnegative s inputs weights (xs ws : list float32) bias n :
  heap s !! inputs = Some xs -> heap s !! weights = Some ws ->
  n <= Z.of_nat (length xs) -> n <= Z.of_nat (length ws) ->
  Forall (fun x => F32.valid x /\ is_finite x = true
                   /\ F32.le (S754_zero false) x = true) xs ->
  Forall (fun w => F32.valid w /\ is_finite w = true
                   /\ F32.le (S754_zero false) w = true) ws ->
  F32.valid bias -> F32.le (S754_zero false) bias = true ->
  perceptron inputs weights bias n s = Done 1 s.
Proof.
  intros Hin Hw Lx Lw Hxs Hws Vb Hb.
  rewrite (perceptron_of_sum _ _ _ _ _ _ _
             (weighted_sum_run s _ _ xs ws Hin Hw bias n Lx Lw)).
  f_equal. apply step_function_le. unfold weighted_sum_spec.
  apply fold_accumulate_nonneg; try assumption.
  apply (Forall_zip
           (fun x => F32.valid x /\ is_finite x = true
                     /\ F32.le (S754_zero false) x = true)
           (fun w => F32.valid w /\ is_finite w = true
                     /\ F32.le (S754_zero false) w = true));
    apply Forall_take; assumption.
Qed.

Lemma perceptron_nonnegative_witness :
  perceptron 0%nat 0%nat (S754_zero false) 2 before_state = Done 1 before_state.
Proof.
  apply (perceptron_nonnegative before_state 0%nat 0%nat _ _ (S754_zero false) 2
           eq_refl eq_refl);
    try reflexivity; try (simpl; lia);
    repeat (constructor; try reflexivity).
Defined.

(** X9: take two calls with the same weights, bias and count whose inputs
    differ in one place, where the second input is larger and the weight at
    that place is negative.  The weighted sum of the second call is not
    greater than that of the first, and when the second call returns 1 so
    does the first. *)
Theorem perceptron_antitone s1 s2 inputs weights (xs ws : list float32)
    bias n j x x' w :
  heap s1 !! inputs = Some xs -> heap s1 !! weights = Some ws ->
  heap s2 !! inputs = Some (<[j:=x']> xs) -> heap s2 !! weights = Some ws ->
  Forall F32.valid xs -> Forall F32.valid ws -> F32.valid bias -> F32.valid x' ->
  xs !! j = Some x -> ws !! j = Some w ->
  F32.lt x x' = true -> F32.lt w (S754_zero false) = true ->
  n <= Z.of_nat (length xs) -> n <= Z.of_nat (length ws) ->
  exists sum1 sum2,
    weighted_sum inputs weights bias n s1 = Done sum1 s1
    /\ weighted_sum inputs weights bias n s2 = Done sum2 s2
    /\ F32.lt sum1 sum2 = false
    /\ (perceptron inputs weights bias n s2 = Done 1 s2 ->
        perceptron inputs weights bias n s1 = Done 1 s1).
Proof.
  intros Hin1 Hw1 Hin2 Hw2 Hxs Hws Hb Hx' Hj Hjw Hlt Hw Hnx Hnw.
  pose proof (weighted_sum_run s1 inputs weights xs ws Hin1 Hw1 bias n Hnx Hnw)
    as Hrun1.
  pose proof (weighted_sum_run s2 inputs weights (<[j:=x']> xs) ws Hin2 Hw2 bias n)
    as Hrun2.
  rewrite length_insert in Hrun2. specialize (Hrun2 Hnx Hnw).
  assert (Hbelow : below F32.prec F32.emax
                     (weighted_sum_spec (<[j:=x']> xs) ws bias (Z.to_nat n))
                     (weighted_sum_spec xs ws bias (Z.to_nat n))).
  { unfold weighted_sum_spec. rewrite <- !zip_with_take.
    apply fold_accumulate_below.
    - apply Forall2_take. apply (zip_below_insert_neg xs ws j x x' w); assumption.
    - apply (below_refl _ _ F32_prec_pos F32_prec_emax). exact Hb. }
  eexists. eexists. split; [exact Hrun1|]. split; [exact Hrun2|]. split.
  - exact (below_not_lt _ _ F32_prec_pos F32_prec_emax _ _ Hbelow).
  - intros H2. rewrite (perceptron_of_sum _ _ _ _ _ _ _ Hrun2) in H2.
    rewrite (perceptron_of_sum _ _ _ _ _ _ _ Hrun1).
    injection H2 as H2. rewrite (step_function_below _ _ Hbelow H2). reflexivity.
Qed.

Lemma perceptron_antitone_witness :
  exists sum1 sum2,
    weighted_sum 0%nat 1%nat (F32.of_int 1) 2 before_state = Done sum1 before_state
    /\ weighted_sum 0%nat 1%nat (F32.of_int 1) 2 raised_state = Done sum2 raised_state
    /\ F32.lt sum1 sum2 = false
    /\ (perceptron 0%nat 1%nat (F32.of_int 1) 2 raised_state = Done 1 raised_state ->
        perceptron 0%nat 1%nat (F32.of_int 1) 2 before_state = Done 1 before_state).
Proof.
  apply (perceptron_antitone before_state raised_state 0%nat 1%nat
           [F32.of_int 1; F32.of_int 1]
           [F64.to_f32 (F64.decimal 5 1); F64.to_f32 (F64.neg (F64.decimal 5 1))]
           (F32.of_int 1) 2 1%nat (F32.of_int 1) (F32.of_int 2)
           (F64.to_f32 (F64.neg (F64.decimal 5 1))));
    try reflexivity; try (simpl; lia);
    repeat (constructor; try reflexivity).
Defined.

(** X10: on arrays and a bias that hold values of type [float] the sum is
    again such a value: no step of the loop leaves the format. *)
Theorem weighted_sum_valid s inputs weights (xs ws : list float32) bias n :
  heap s !! inputs = Some xs -> heap s !! weights = Some ws ->
  n <= Z.of_nat (length xs) -> n <= Z.of_nat (length ws) ->
  Forall F32.valid xs -> Forall F32.valid ws -> F32.valid bias ->
  exists sum, weighted_sum inputs weights bias n s = Done sum s /\ F32.valid sum.
Proof.
  intros Hin Hw Lx Lw Hxs Hws Vb.
  eexists. split; [apply (weighted_sum_run s _ _ xs ws); assumption|].
  unfold weighted_sum_spec. apply fold_accumulate_valid; [|exact Vb].
  apply (Forall_zip F32.valid F32.valid); apply Forall_take; assumption.
Qed.

Lemma weighted_sum_valid_witness :
  exists sum, weighted_sum 0%nat 1%nat (F64.to_f32 (F64.decimal 1 1)) 2 driver_state
              = Done sum driver_state /\ F32.valid sum.
Proof.
  apply (weighted_sum_valid driver_state 0%nat 1%nat _ _
           (F64.to_f32 (F64.decimal 1 1)) 2 eq_refl eq_refl);
    try reflexivity; try (simpl; lia);
    repeat (constructor; try reflexivity).
Defined.

(** X11: the step function is monotone: when [x <= y] holds, the result
    for [x] is not above the result for [y]. *)
Theorem step_function_monotone (x y : float32) :
  F32.le x y = true -> step_function x <= step_function y.
Proof.
  intros H. rewrite !step_function_cases.
  destruct x as [s|[|]| |[|] m e], y as [s'|[|]| |[|] m' e'];
    try discriminate; lia.
Qed.

Lemma step_function_monotone_witness :
  step_function (F32.of_int (-1)) <= step_function (F32.of_int 1).
Proof.
  apply (step_function_monotone (F32.of_int (-1)) (F32.of_int 1)). reflexivity.
Defined.
